(** * SkyWrite AI backend (src/app.py): the correction pipeline

    A shallow embedding of [apply_local_grammar_correction], [enhance_text],
    [api_enhance] and [health_check], with the parts of Python's [re] and
    [json] modules that those functions call.

    Python strings are sequences of code points; they are modelled as
    [list N].  What CPython decides by a Unicode database lookup (is a
    code point white space, alphanumeric, how does it fold under
    IGNORECASE, what is its lower case) is exact here on ASCII and is left
    to a [UnicodeDB] beyond ASCII, so that every statement holds for every
    version of the database. *)

From Stdlib Require Import List NArith ZArith Arith Bool String Ascii Lia.
Import ListNotations.

Set Implicit Arguments.

(** ** Strings *)

Module Str.

Definition str := list N.

Definition eqb (a b : str) : bool :=
  if list_eq_dec N.eq_dec a b then true else false.

Lemma eqb_eq (a b : str) : eqb a b = true <-> a = b.
Proof.
  unfold eqb. destruct (list_eq_dec N.eq_dec a b); split; congruence.
Qed.

Lemma eqb_refl (a : str) : eqb a a = true.
Proof. now apply eqb_eq. Qed.

(** The bytes of a source literal, read as UTF-8 (the source file is
    UTF-8: the arrows of the rule descriptions are U+2192). *)
Fixpoint bytes (s : string) : list N :=
  match s with
  | EmptyString => []
  | String a t => N_of_ascii a :: bytes t
  end.

Definition cont (b : N) : N := N.land b 63.

Fixpoint utf8 (fuel : nat) (bs : list N) : str :=
  match fuel with
  | O => []
  | S fuel' =>
    match bs with
    | [] => []
    | b0 :: t =>
      if (b0 <? 128)%N then b0 :: utf8 fuel' t
      else if (b0 <? 224)%N then
        match t with
        | b1 :: t' => (N.land b0 31 * 64 + cont b1)%N :: utf8 fuel' t'
        | _ => [b0]
        end
      else if (b0 <? 240)%N then
        match t with
        | b1 :: b2 :: t' =>
            (N.land b0 15 * 4096 + cont b1 * 64 + cont b2)%N :: utf8 fuel' t'
        | _ => [b0]
        end
      else
        match t with
        | b1 :: b2 :: b3 :: t' =>
            (N.land b0 7 * 262144 + cont b1 * 4096 + cont b2 * 64 + cont b3)%N
              :: utf8 fuel' t'
        | _ => [b0]
        end
    end
  end.

(** [lit "..."] is the Python string written with that literal. *)
Definition lit (s : string) : str :=
  let bs := bytes s in utf8 (List.length bs) bs.

(** The double quote, which a literal of this file cannot hold. *)
Definition dq : N := 34%N.

(** ['... "w" ...'] in the source: [w] between double quotes. *)
Definition quoted (w : string) : str := dq :: lit w ++ [dq].

End Str.

Import Str.

(** ** The Unicode database, beyond ASCII *)

Record UnicodeDB := {
  (** [Py_UNICODE_ISSPACE] on a code point above 127 *)
  uni_isspace : N -> bool;
  (** [Py_UNICODE_ISALNUM] on a code point above 127 *)
  uni_isalnum : N -> bool;
  (** does the code point [d] above 127 match the ASCII letter [p] (given in
      lower case) under IGNORECASE: is [lower d] the letter or one of its
      case fixes *)
  uni_icase : N -> N -> bool;
  (** [str.lower] of a string that is not all ASCII *)
  uni_lower : str -> str
}.

(** A database in which no code point above 127 has any property. *)
Definition ascii_only : UnicodeDB :=
  {| uni_isspace := fun _ => false;
     uni_isalnum := fun _ => false;
     uni_icase := fun _ _ => false;
     uni_lower := fun s => s |}.

Module Chr.

Local Open Scope N_scope.

Definition is_ascii (d : N) : bool := d <? 128.

Definition between (lo hi d : N) : bool := (lo <=? d) && (d <=? hi).

Definition is_upper (d : N) : bool := between 65 90 d.
Definition is_lower (d : N) : bool := between 97 122 d.
Definition is_letter (d : N) : bool := is_upper d || is_lower d.
Definition is_digit (d : N) : bool := between 48 57 d.

Definition ascii_lower (d : N) : N := if is_upper d then d + 32 else d.

(** [_Py_ascii_whitespace]: TAB, LF, VT, FF, CR, FS, GS, RS, US and space. *)
Definition ascii_space (d : N) : bool :=
  between 9 13 d || between 28 31 d || (d =? 32).

Definition is_space (U : UnicodeDB) (d : N) : bool :=
  if is_ascii d then ascii_space d else uni_isspace U d.

(** The class [\w] of a str pattern: alphanumeric or the underscore. *)
Definition is_word (U : UnicodeDB) (d : N) : bool :=
  if is_ascii d then is_letter d || is_digit d || (d =? 95)
  else uni_isalnum U d.

(** A pattern character [p] (always ASCII in this program) against the
    text character [d], under [re.IGNORECASE]. *)
Definition ci_eq (U : UnicodeDB) (p d : N) : bool :=
  if is_ascii d then ascii_lower d =? ascii_lower p
  else is_letter p && uni_icase U (ascii_lower p) d.

End Chr.

(** ** The fragment of Python's [re] that the rule table uses

    Every pattern of the table is built from literal characters, bracketed
    sets, [\s], [\b], a greedy [+] on one character, alternation and one
    capturing group; all are compiled with [re.IGNORECASE].  The matcher
    returns the ways a pattern can match at a position in the order a
    backtracking search tries them, so the head of the list is the match
    [re] reports. *)

Module Re.

(** one character of the pattern *)
Inductive cset :=
| CLit (p : N)            (* a literal character *)
| CSet (ps : list N)      (* [...] *)
| CSpace.                 (* \s *)

Inductive regex :=
| REps
| RChar (c : cset)
| RPlus (c : cset)        (* c+ , greedy *)
| RBound                  (* \b *)
| RSeq (r1 r2 : regex)
| RAlt (r1 r2 : regex)
| RGroup (n : nat) (r : regex).

(** the replacement template: literal text and [\n] group references *)
Inductive titem :=
| TLit (s : str)
| TGroup (n : nat).

Definition template := list titem.

Definition groups := list (nat * str).

(** [m.group(n)]; a group that took no part expands to the empty string. *)
Fixpoint group (n : nat) (g : groups) : str :=
  match g with
  | [] => []
  | (k, s) :: g' => if Nat.eqb k n then s else group n g'
  end.

(** The position of a search: the character before it, and the rest of the
    subject from it. *)
Definition pos := (option N * str)%type.

Section Matcher.

Variable U : UnicodeDB.

Definition cmatch (c : cset) (d : N) : bool :=
  match c with
  | CLit p => Chr.ci_eq U p d
  | CSet ps => existsb (fun p => Chr.ci_eq U p d) ps
  | CSpace => Chr.is_space U d
  end.

Definition word_opt (o : option N) : bool :=
  match o with
  | Some d => Chr.is_word U d
  | None => false
  end.

(** [\b]: exactly one of the two neighbours is a word character. *)
Definition boundary (p : pos) : bool :=
  xorb (word_opt (fst p)) (word_opt (hd_error (snd p))).

(** [c+] from [rest]: the positions after 1, 2, ... characters of the
    class, the longest run first. *)
Fixpoint plus (c : cset) (rest : str) : list pos :=
  match rest with
  | d :: t => if cmatch c d then plus c t ++ [(Some d, t)] else []
  | [] => []
  end.

(** the text between a position and a later one *)
Definition span (from to : str) : str :=
  firstn (List.length from - List.length to) from.

Fixpoint rmatch (r : regex) (p : pos) (g : groups) : list (pos * groups) :=
  match r with
  | REps => [(p, g)]
  | RChar c =>
      match snd p with
      | d :: t => if cmatch c d then [((Some d, t), g)] else []
      | [] => []
      end
  | RPlus c => map (fun q => (q, g)) (plus c (snd p))
  | RBound => if boundary p then [(p, g)] else []
  | RSeq r1 r2 =>
      flat_map (fun qg => rmatch r2 (fst qg) (snd qg)) (rmatch r1 p g)
  | RAlt r1 r2 => rmatch r1 p g ++ rmatch r2 p g
  | RGroup n r1 =>
      map (fun qg => (fst qg, (n, span (snd p) (snd (fst qg))) :: snd qg))
          (rmatch r1 p g)
  end.

(** One match: the matched text, the position after it and its groups. *)
Record rmatch_result := {
  m_text : str;
  m_end : pos;
  m_groups : groups
}.

Definition result_at (p : pos) (qg : pos * groups) : rmatch_result :=
  {| m_text := span (snd p) (snd (fst qg));
     m_end := fst qg;
     m_groups := snd qg |}.

(** The match at [p], if any; with [must_advance] an empty match is
    refused and the search backtracks into the next alternative. *)
Definition match_at (r : regex) (must_advance : bool) (p : pos)
  : option rmatch_result :=
  let ok (m : rmatch_result) :=
    negb must_advance || negb (Nat.eqb (List.length (m_text m)) 0) in
  find ok (map (result_at p) (rmatch r p [])).

(** The scan shared by [re.finditer] and [re.sub]: the subject cut into
    the characters no match covers and the matches, left to right.  After
    an empty match the search resumes at the same place and must advance. *)
Inductive segment :=
| Keep (d : N)
| Hit (m : rmatch_result).

Fixpoint scan (r : regex) (prev : option N) (rest : str) (skip : nat)
  : list segment :=
  match rest with
  | [] =>
      match match_at r false (prev, []) with
      | Some m => [Hit m]
      | None => []
      end
  | d :: t =>
      match skip with
      | S k => scan r (Some d) t k
      | O =>
          let here := (prev, rest) in
          let after (m : rmatch_result) :=
            scan r (Some d) t (List.length (m_text m) - 1) in
          match match_at r false here with
          | None => Keep d :: scan r (Some d) t 0
          | Some m =>
              if Nat.eqb (List.length (m_text m)) 0 then
                match match_at r true here with
                | Some m' => Hit m :: Hit m' :: after m'
                | None => Hit m :: Keep d :: scan r (Some d) t 0
                end
              else Hit m :: after m
          end
      end
  end.

Definition expand_item (g : groups) (i : titem) : str :=
  match i with
  | TLit s => s
  | TGroup n => group n g
  end.

Definition expand (t : template) (m : rmatch_result) : str :=
  flat_map (expand_item (m_groups m)) t.

(** [re.finditer(pattern, s, flags=re.IGNORECASE)] *)
Definition finditer (r : regex) (s : str) : list rmatch_result :=
  flat_map (fun sg => match sg with Hit m => [m] | Keep _ => [] end)
           (scan r None s 0).

(** [re.sub(pattern, repl, s, flags=re.IGNORECASE)] *)
Definition sub (r : regex) (t : template) (s : str) : str :=
  flat_map (fun sg => match sg with Hit m => expand t m | Keep d => [d] end)
           (scan r None s 0).

End Matcher.

(** Pattern syntax, written as in the source. *)
Fixpoint word (s : str) : regex :=
  match s with
  | [] => REps
  | [c] => RChar (CLit c)
  | c :: t => RSeq (RChar (CLit c)) (word t)
  end.

Definition w (s : string) : regex := word (lit s).

Fixpoint seq (rs : list regex) : regex :=
  match rs with
  | [] => REps
  | [r] => r
  | r :: t => RSeq r (seq t)
  end.

Fixpoint alt (rs : list regex) : regex :=
  match rs with
  | [] => REps
  | [r] => r
  | r :: t => RAlt r (alt t)
  end.

(** [[Xx]rest], as in [[Hh]e] *)
Definition cap (x : string) (rest : string) : regex :=
  seq [RChar (CSet (lit x)); w rest].

Definition b := RBound.
Definition s_plus := RPlus CSpace.

End Re.

(** ** The Local Corrector: [apply_local_grammar_correction] *)

Module Local.

Import Re.

Record improvement := {
  original : str;
  fixed : str;
  reason : str
}.

(** One entry of [grammar_rules].  Every entry of the source has
    [is_regex = True], so the plain-replacement branch of the loop never
    runs and the flag is not kept. *)
Record rule := {
  pattern : regex;
  replacement : template;
  rule_reason : str
}.

Definition arrow (kind a c : string) : str :=
  lit kind ++ quoted a ++ lit " → " ++ quoted c.

Definition az : str := lit "abcdefghijklmnopqrstuvwxyz".

Definition spelling (wrong right : string) : rule :=
  {| pattern := seq [b; w wrong; b];
     replacement := [TLit (lit right)];
     rule_reason := arrow "Spelling: " wrong right |}.

Definition modal_of (verb : string) : rule :=
  {| pattern := seq [b; w verb; s_plus; w "of"; b];
     replacement := [TLit (lit verb ++ lit " have")];
     rule_reason :=
       lit "Grammar: " ++ dq :: lit verb ++ lit " of" ++ [dq] ++ lit " → "
         ++ dq :: lit verb ++ lit " have" ++ [dq] |}.

Definition grammar_rules : list rule := [
  (* Capitalization *)
  {| pattern := seq [b; w "i"; b];
     replacement := [TLit (lit "I")];
     rule_reason := arrow "Capitalization: pronoun " "i" "I" |};
  (* Subject-verb agreement *)
  {| pattern := seq [b; RGroup 1 (alt [cap "Hh" "e"; cap "Ss" "he"; cap "Ii" "t"]);
                     s_plus; w "are"; b];
     replacement := [TGroup 1; TLit (lit " is")];
     rule_reason := arrow "Subject-verb agreement: " "are" "is" |};
  {| pattern := seq [b; RGroup 1 (alt [RChar (CSet (lit "Ii")); cap "Yy" "ou";
                                       cap "Ww" "e"; cap "Tt" "hey"; w "people"]);
                     s_plus; w "is"; b];
     replacement := [TGroup 1; TLit (lit " are")];
     rule_reason := arrow "Subject-verb agreement: " "is" "are" |};
  {| pattern := seq [b; RGroup 1 (alt [cap "Hh" "e"; cap "Ss" "he"; cap "Ii" "t"]);
                     s_plus; w "have"; b];
     replacement := [TGroup 1; TLit (lit " has")];
     rule_reason := arrow "Subject-verb agreement: " "have" "has" |};
  {| pattern := seq [b; RGroup 1 (alt [RChar (CSet (lit "Ii")); cap "Yy" "ou";
                                       cap "Ww" "e"; cap "Tt" "hey"]);
                     s_plus; w "has"; b];
     replacement := [TGroup 1; TLit (lit " have")];
     rule_reason := arrow "Subject-verb agreement: " "has" "have" |};
  (* Common contractions and typos *)
  {| pattern := seq [b; w "your"; s_plus;
                     RGroup 1 (alt [w "going"; w "coming"; w "doing";
                                    w "making"; w "taking"]); b];
     replacement := [TLit (lit "you're "); TGroup 1];
     rule_reason := arrow "Contraction: " "your" "you're" |};
  {| pattern := seq [b; w "its"; s_plus; RGroup 1 (RChar (CSet az))];
     replacement := [TLit (lit "it's "); TGroup 1];
     rule_reason := arrow "Contraction: " "its" "it's" |};
  {| pattern := seq [b; w "their"; s_plus;
                     RGroup 1 (alt [w "going"; w "coming"; w "doing"]); b];
     replacement := [TLit (lit "they're "); TGroup 1];
     rule_reason := arrow "Contraction: " "their" "they're" |};
  {| pattern := seq [b; w "there"; s_plus; RGroup 1 (alt [w "is"; w "are"]); b];
     replacement := [TLit (lit "there "); TGroup 1];
     rule_reason := lit "Phrase: " ++ quoted "there is/are" ++ lit " is correct" |};
  (* Common spelling mistakes *)
  spelling "recieve" "receive";
  spelling "occured" "occurred";
  spelling "seperate" "separate";
  spelling "neccessary" "necessary";
  spelling "definately" "definitely";
  spelling "accross" "across";
  spelling "wether" "whether";
  (* Common phrase errors *)
  modal_of "would";
  modal_of "could";
  modal_of "should";
  {| pattern := seq [b; w "lot"; s_plus; w "of"; b];
     replacement := [TLit (lit "lot of")];
     rule_reason := lit "Grammar: correct usage of " ++ quoted "lot of" |};
  (* Double spaces *)
  {| pattern := seq [RChar (CLit 32); RPlus (CLit 32)];
     replacement := [TLit (lit " ")];
     rule_reason := lit "Spacing: remove extra spaces" |}
].

Section Corrector.

Variable U : UnicodeDB.

(** [str.lower]: character by character on an ASCII string. *)
Definition lower (s : str) : str :=
  if forallb Chr.is_ascii s then map Chr.ascii_lower s else uni_lower U s.

(** [str.strip()] *)
Fixpoint lstrip (s : str) : str :=
  match s with
  | d :: t => if Chr.is_space U d then lstrip t else s
  | [] => []
  end.

Definition strip (s : str) : str := rev (lstrip (rev (lstrip s))).

(** The body of [for match in matches]. *)
Definition record (r : rule) (show_explanations : bool)
    (corrections : list improvement) (m : rmatch_result) : list improvement :=
  let original := m_text m in
  let fixed := sub U (pattern r) (replacement r) original in
  if negb (Str.eqb original fixed) && show_explanations then
    let exists_ :=
      existsb (fun c => Str.eqb (lower (c.(Local.original))) (lower original))
              corrections in
    if exists_ then corrections
    else corrections ++ [{| original := original; fixed := fixed;
                            reason := rule_reason r |}]
  else corrections.

(** The body of [for pattern, replacement, reason, is_regex in
    grammar_rules], on the pair (corrections, corrected). *)
Definition apply_rule (show_explanations : bool)
    (st : list improvement * str) (r : rule) : list improvement * str :=
  let (corrections, corrected) := st in
  let matches := finditer U (pattern r) corrected in
  (fold_left (record r show_explanations) matches corrections,
   sub U (pattern r) (replacement r) corrected).

Definition run_rules (rules : list rule) (text : str)
    (show_explanations : bool) : list improvement * str :=
  fold_left (apply_rule show_explanations) rules ([], text).

(** The dictionary handed to [json.dumps]. *)
Record payload := {
  correctedText : str;
  improvements : list improvement
}.

Definition local_payload (text tone : str) (show_explanations : bool)
  : payload :=
  let (corrections, corrected) := run_rules grammar_rules text show_explanations in
  {| correctedText := strip corrected;
     improvements := firstn 10 corrections |}.

End Corrector.

End Local.

(** ** The fragment of Python's [json] that the pipeline uses *)

Module Json.

Local Open Scope N_scope.

(** A decoded document.  A number keeps its lexeme: the pipeline never
    computes with one. *)
#[warnings="-register-all"]
Inductive json :=
| JNull
| JBool (v : bool)
| JNum (lexeme : str)
| JStr (s : str)
| JArr (items : list json)
| JObj (members : list (str * json)).

(** [dict.get(key, default)] on a decoded object: [json.loads] keeps the
    last of several members with one key. *)
Fixpoint get (key : str) (members : list (str * json)) (default : json) : json :=
  match members with
  | [] => default
  | (k, v) :: rest =>
      let later := get key rest default in
      if Str.eqb k key && negb (existsb (fun kv => Str.eqb (fst kv) key) rest)
      then v else later
  end.

(** *** [json.dumps], with its default [ensure_ascii=True] *)

Definition hex_digit (n : N) : N := if n <? 10 then 48 + n else 87 + n.

(** [\uXXXX] *)
Definition hex4 (c : N) : str :=
  [92; 117; hex_digit (c / 4096); hex_digit ((c / 256) mod 16);
   hex_digit ((c / 16) mod 16); hex_digit (c mod 16)].

Definition escape_char (c : N) : str :=
  if c =? 92 then [92; 92]
  else if c =? 34 then [92; 34]
  else if c =? 8 then [92; 98]
  else if c =? 12 then [92; 102]
  else if c =? 10 then [92; 110]
  else if c =? 13 then [92; 114]
  else if c =? 9 then [92; 116]
  else if (32 <=? c) && (c <=? 126) then [c]
  else if c <? 65536 then hex4 c
  else
    let v := c - 65536 in
    hex4 (55296 + v / 1024) ++ hex4 (56320 + v mod 1024).

Definition dump_str (s : str) : str :=
  dq :: flat_map escape_char s ++ [dq].

(** items separated by [", "] *)
Fixpoint commas (items : list str) : str :=
  match items with
  | [] => []
  | [x] => x
  | x :: rest => x ++ lit ", " ++ commas rest
  end.

Definition dump_member (kv : str * str) : str :=
  dump_str (fst kv) ++ lit ": " ++ snd kv.

Definition dump_obj (members : list (str * str)) : str :=
  lit "{" ++ commas (map dump_member members) ++ lit "}".

Definition dump_arr (items : list str) : str :=
  lit "[" ++ commas items ++ lit "]".

(** *** [json.loads] *)

Definition is_ws (d : N) : bool :=
  (d =? 32) || (d =? 9) || (d =? 10) || (d =? 13).

Fixpoint skip_ws (s : str) : str :=
  match s with
  | d :: t => if is_ws d then skip_ws t else s
  | [] => []
  end.

Definition hex_val (d : N) : option N :=
  if Chr.between 48 57 d then Some (d - 48)
  else if Chr.between 97 102 d then Some (d - 87)
  else if Chr.between 65 70 d then Some (d - 55)
  else None.

(** four hexadecimal digits *)
Definition read_hex4 (s : str) : option (N * str) :=
  match s with
  | a :: b :: c :: d :: t =>
      match hex_val a, hex_val b, hex_val c, hex_val d with
      | Some x, Some y, Some z, Some u =>
          Some (x * 4096 + y * 256 + z * 16 + u, t)
      | _, _, _, _ => None
      end
  | _ => None
  end.

Definition is_high (c : N) : bool := Chr.between 55296 56319 c.
Definition is_low (c : N) : bool := Chr.between 56320 57343 c.

(** the code point a surrogate pair stands for *)
Definition join (hi lo : N) : N := 65536 + (hi - 55296) * 1024 + (lo - 56320).

(** an escaped low surrogate at the head of [t] *)
Definition peek_low (t : str) : option (N * str) :=
  match t with
  | a :: b :: t' =>
      if (a =? 92) && (b =? 117) then
        match read_hex4 t' with
        | Some (lo, t'') => if is_low lo then Some (lo, t'') else None
        | None => None
        end
      else None
  | _ => None
  end.

(** The code point of a [\u] escape whose digits start at [s]: a high
    surrogate directly followed by an escaped low surrogate stands for one
    code point. *)
Definition read_unicode (s : str) : option (N * str) :=
  match read_hex4 s with
  | None => None
  | Some (hi, t) =>
      if is_high hi then
        match peek_low t with
        | Some (lo, t') => Some (join hi lo, t')
        | None => Some (hi, t)
        end
      else Some (hi, t)
  end.

Definition simple_escape (d : N) : option N :=
  if d =? 34 then Some 34
  else if d =? 92 then Some 92
  else if d =? 47 then Some 47
  else if d =? 98 then Some 8
  else if d =? 102 then Some 12
  else if d =? 110 then Some 10
  else if d =? 114 then Some 13
  else if d =? 116 then Some 9
  else None.

(** The body of a string after its opening quote (strict mode: a raw
    control character is an error). *)
Fixpoint scanstring (fuel : nat) (s acc : str) : option (str * str) :=
  match fuel with
  | O => None
  | S fuel' =>
    match s with
    | [] => None
    | d :: t =>
        if d =? 34 then Some (rev acc, t)
        else if d =? 92 then
          match t with
          | [] => None
          | e :: t' =>
              if e =? 117 then
                match read_unicode t' with
                | Some (c, t'') => scanstring fuel' t'' (c :: acc)
                | None => None
                end
              else
                match simple_escape e with
                | Some c => scanstring fuel' t' (c :: acc)
                | None => None
                end
          end
        else if d <? 32 then None
        else scanstring fuel' t (d :: acc)
    end
  end.

Fixpoint digits (s : str) : str * str :=
  match s with
  | d :: t =>
      if Chr.is_digit d then let (ds, r) := digits t in (d :: ds, r)
      else ([], s)
  | [] => ([], [])
  end.

(** A number: an optional minus, an integer part without a leading zero,
    then optionally a fraction and optionally an exponent; a dot or an [e]
    that no digit follows is left unread. *)
Definition number (s : str) : option (str * str) :=
  let (sign, s1) := match s with
                    | 45 :: t => ([45], t)
                    | _ => ([], s)
                    end in
  let int_part :=
    match s1 with
    | 48 :: t => Some ([48], t)
    | d :: _ => if Chr.is_digit d then Some (digits s1) else None
    | [] => None
    end in
  match int_part with
  | None => None
  | Some (ip, s2) =>
      let (frac, s3) :=
        match s2 with
        | 46 :: t =>
            match digits t with
            | ([], _) => ([], s2)
            | (ds, r) => (46 :: ds, r)
            end
        | _ => ([], s2)
        end in
      let (ex, s4) :=
        match s3 with
        | e :: t =>
            if (e =? 101) || (e =? 69) then
              let (sg, t1) := match t with
                              | x :: t' =>
                                  if (x =? 43) || (x =? 45) then ([x], t')
                                  else ([], t)
                              | [] => ([], t)
                              end in
              match digits t1 with
              | ([], _) => ([], s3)
              | (ds, r) => (e :: sg ++ ds, r)
              end
            else ([], s3)
        | [] => ([], s3)
        end in
      Some (sign ++ ip ++ frac ++ ex, s4)
  end.

(** [s] starts with [p]: the rest after it *)
Fixpoint after (p s : str) : option str :=
  match p, s with
  | [], _ => Some s
  | a :: p', c :: s' => if a =? c then after p' s' else None
  | _ :: _, [] => None
  end.

Definition keyword (s : str) : option (json * str) :=
  match after (lit "null") s with
  | Some r => Some (JNull, r)
  | None =>
  match after (lit "true") s with
  | Some r => Some (JBool true, r)
  | None =>
  match after (lit "false") s with
  | Some r => Some (JBool false, r)
  | None =>
  match after (lit "NaN") s with
  | Some r => Some (JNum (lit "NaN"), r)
  | None =>
  match after (lit "Infinity") s with
  | Some r => Some (JNum (lit "Infinity"), r)
  | None =>
  match after (lit "-Infinity") s with
  | Some r => Some (JNum (lit "-Infinity"), r)
  | None => None
  end end end end end end.

(** The scanner: one value at the head of [s], and what follows it.  The
    fuel bounds the calls; [loads] gives enough for any input. *)
Fixpoint value (fuel : nat) (s : str) : option (json * str) :=
  match fuel with
  | O => None
  | S fuel' =>
    match s with
    | [] => None
    | d :: t =>
        if d =? 34 then
          match scanstring (List.length t) t [] with
          | Some (x, r) => Some (JStr x, r)
          | None => None
          end
        else if d =? 123 then
          match skip_ws t with
          | c :: r => if c =? 125 then Some (JObj [], r)
                      else members fuel' (c :: r) []
          | [] => None
          end
        else if d =? 91 then
          match skip_ws t with
          | c :: r => if c =? 93 then Some (JArr [], r)
                      else elements fuel' (c :: r) []
          | [] => None
          end
        else
          match keyword s with
          | Some vr => Some vr
          | None =>
              match number s with
              | Some (lx, r) => Some (JNum lx, r)
              | None => None
              end
          end
    end
  end
with elements (fuel : nat) (s : str) (acc : list json) : option (json * str) :=
  match fuel with
  | O => None
  | S fuel' =>
    match value fuel' s with
    | None => None
    | Some (v, r) =>
        match skip_ws r with
        | 93 :: r' => Some (JArr (rev (v :: acc)), r')
        | 44 :: r' => elements fuel' (skip_ws r') (v :: acc)
        | _ => None
        end
    end
  end
with members (fuel : nat) (s : str) (acc : list (str * json))
  : option (json * str) :=
  match fuel with
  | O => None
  | S fuel' =>
    match s with
    | 34 :: t =>
        match scanstring (List.length t) t [] with
        | None => None
        | Some (k, r) =>
            match skip_ws r with
            | 58 :: r1 =>
                match value fuel' (skip_ws r1) with
                | None => None
                | Some (v, r2) =>
                    match skip_ws r2 with
                    | 125 :: r3 => Some (JObj (rev ((k, v) :: acc)), r3)
                    | 44 :: r3 => members fuel' (skip_ws r3) ((k, v) :: acc)
                    | _ => None
                    end
                end
            | _ => None
            end
        end
    | _ => None
    end
  end.

(** [json.loads(s)]; [None] stands for [JSONDecodeError].  The limits of
    the interpreter (its recursion depth on deeply nested documents, the
    digits of an integer) are not modelled: no claim depends on them. *)
Definition loads (s : str) : option json :=
  match value (2 * List.length s + 2) (skip_ws s) with
  | Some (v, r) =>
      match skip_ws r with
      | [] => Some v
      | _ => None
      end
  | None => None
  end.

End Json.

(** ** The Enhancement Orchestrator: [enhance_text] *)

Module App.

Import Json Local.

(** The process-wide configuration read at start-up. *)
Record config := {
  (** did [import google.generativeai] succeed *)
  HAS_GEMINI_SDK : bool;
  (** the environment variable GEMINI_API_KEY, when it is set *)
  env_GEMINI_API_KEY : option str
}.

Definition placeholder : str := lit "your-api-key-here".

(** [os.getenv('GEMINI_API_KEY', 'your-api-key-here')] *)
Definition GEMINI_API_KEY (cfg : config) : str :=
  match env_GEMINI_API_KEY cfg with
  | Some k => k
  | None => placeholder
  end.

(** the truth value of a string *)
Definition truthy (s : str) : bool :=
  match s with
  | [] => false
  | _ :: _ => true
  end.

(** [bool(GEMINI_API_KEY and GEMINI_API_KEY != 'your-api-key-here')] *)
Definition key_configured (cfg : config) : bool :=
  truthy (GEMINI_API_KEY cfg) && negb (Str.eqb (GEMINI_API_KEY cfg) placeholder).

(** The remote service, as the orchestrator sees it: constructing a model
    by name succeeds or raises, and so does asking it for the text of a
    reply to a prompt. *)
Record genai := {
  GenerativeModel : str -> bool;
  generate_content : str -> str -> option str
}.

Definition WRITING_TONES : list (str * str) := [
  (lit "original", lit "Maintain the original tone and style");
  (lit "professional", lit "Use a professional and formal tone");
  (lit "casual", lit "Use a casual and friendly tone");
  (lit "academic", lit "Use an academic and scholarly tone")
].

(** [WRITING_TONES.get(tone, WRITING_TONES['original'])] *)
Fixpoint tone_get (tones : list (str * str)) (tone default : str) : str :=
  match tones with
  | [] => default
  | (k, v) :: rest => if Str.eqb k tone then v else tone_get rest tone default
  end.

Definition nl : str := [10%N].

Definition prompt_of (text tone : str) (show_explanations : bool) : str :=
  let tone_instruction :=
    tone_get WRITING_TONES tone (lit "Maintain the original tone and style") in
  lit "You are an expert grammar correction and writing enhancement assistant."
  ++ nl ++ nl
  ++ lit "Task: Review and improve the following text." ++ nl
  ++ lit "Tone: " ++ tone_instruction ++ nl ++ nl
  ++ lit "Original Text:" ++ nl
  ++ text ++ nl ++ nl
  ++ lit "Please provide:" ++ nl
  ++ lit "1. The corrected and enhanced version of the text" ++ nl
  ++ lit "2. "
  ++ (if show_explanations
      then lit "A list of specific improvements made (in JSON format with 'original', 'fixed', and 'reason' fields)"
      else [])
  ++ nl ++ nl
  ++ lit "Format your response as JSON with these fields:" ++ nl
  ++ lit "- correctedText: The improved text" ++ nl
  ++ lit "- improvements: [{" ++ quoted "original" ++ lit ": " ++ quoted "..."
  ++ lit ", " ++ quoted "fixed" ++ lit ": " ++ quoted "..."
  ++ lit ", " ++ quoted "reason" ++ lit ": " ++ quoted "..."
  ++ lit "}] (only if explanations are requested)" ++ nl ++ nl
  ++ lit "Respond ONLY with valid JSON, no additional text.".

(** What [enhance_text] catches in its outer handler. *)
Inductive exn :=
| JSONDecodeError      (* json.loads on a text that is not JSON *)
| AttributeError.      (* .get on a decoded value that is not a dict *)

(** The dictionary [enhance_text] returns; the values come out of a JSON
    document, so they are JSON values. *)
Record enhancement := {
  e_correctedText : json;
  e_improvements : json;
  e_error : option exn
}.

Section Orchestrator.

Variable U : UnicodeDB.

Definition json_of_improvement (i : improvement) : json :=
  JObj [(lit "original", JStr (original i));
        (lit "fixed", JStr (fixed i));
        (lit "reason", JStr (reason i))].

Definition json_of_payload (p : payload) : json :=
  JObj [(lit "correctedText", JStr (correctedText p));
        (lit "improvements", JArr (map json_of_improvement (improvements p)))].

Definition dump_improvement (i : improvement) : str :=
  dump_obj [(lit "original", dump_str (original i));
            (lit "fixed", dump_str (fixed i));
            (lit "reason", dump_str (reason i))].

Definition dump_payload (p : payload) : str :=
  dump_obj [(lit "correctedText", dump_str (correctedText p));
            (lit "improvements",
             dump_arr (map dump_improvement (improvements p)))].

(** [apply_local_grammar_correction(text, tone, show_explanations)]: the
    JSON text of the payload. *)
Definition apply_local_grammar_correction
    (text tone : str) (show_explanations : bool) : str :=
  dump_payload (local_payload U text tone show_explanations).

Definition startswith (p s : str) : bool :=
  match after p s with
  | Some _ => true
  | None => false
  end.

Definition endswith (p s : str) : bool := startswith (rev p) (rev s).

Definition fence : str := lit "```".

(** [# Clean up JSON response if it came from Gemini] *)
Definition clean_fences (result_text : str) : str :=
  let t1 := if startswith (lit "```json") result_text
            then skipn 7 result_text else result_text in
  let t2 := if startswith fence t1 then skipn 3 t1 else t1 in
  if endswith fence t2 then firstn (List.length t2 - 3) t2 else t2.

(** The LLM path of the inner [try]: [None] when it raises. *)
Definition ask_gemini (g : genai) (prompt : str) : option str :=
  let model :=
    if GenerativeModel g (lit "gemini-2.0-flash")
    then Some (lit "gemini-2.0-flash")
    else if GenerativeModel g (lit "gemini-1.5-flash")
    then Some (lit "gemini-1.5-flash")
    else None in
  match model with
  | None => None
  | Some name =>
      match generate_content g name prompt with
      | Some reply => Some (strip U reply)
      | None => None
      end
  end.

Definition errored (text : str) (e : exn) : enhancement :=
  {| e_correctedText := JStr text;
     e_improvements := JArr [];
     e_error := Some e |}.

Definition enhance_text (cfg : config) (g : genai)
    (text tone : str) (show_explanations : bool) : enhancement :=
  let prompt := prompt_of text tone show_explanations in
  let result_text :=
    if HAS_GEMINI_SDK cfg && key_configured cfg then
      match ask_gemini g prompt with
      | Some reply => reply
      | None => apply_local_grammar_correction text tone show_explanations
      end
    else apply_local_grammar_correction text tone show_explanations in
  match loads (strip U (clean_fences result_text)) with
  | None => errored text JSONDecodeError
  | Some (JObj result) =>
      {| e_correctedText := get (lit "correctedText") result (JStr text);
         e_improvements :=
           if show_explanations
           then get (lit "improvements") result (JArr [])
           else JArr [];
         e_error := None |}
  | Some _ => errored text AttributeError
  end.

(** *** The HTTP layer: [api_enhance] and [health_check]

    The body of a request is taken at the type the interface declares: an
    object whose [text] and [tone] are strings and whose [showExplanations]
    is a boolean, each of them possibly absent. *)

Record request := {
  r_text : option str;
  r_tone : option str;
  r_showExplanations : option bool
}.

Inductive body :=
| ErrorText (message : str)     (* {'error': 'Text is required'} *)
| ErrorRaised (e : exn)         (* {'error': str(e)} *)
| Result (r : enhancement).     (* jsonify(result) *)

Record response := {
  status : nat;
  payload_of : body
}.

(** a call of [enhance_text], as the handler makes it *)
Record call := {
  c_text : str;
  c_tone : str;
  c_show : bool
}.

Definition or_default {A : Type} (o : option A) (d : A) : A :=
  match o with
  | Some x => x
  | None => d
  end.

(** The handler: its response, and the calls of [enhance_text] it made. *)
Definition api_enhance (cfg : config) (g : genai) (data : request)
  : response * list call :=
  let text := or_default (r_text data) [] in
  let tone := or_default (r_tone data) (lit "original") in
  let show_explanations := or_default (r_showExplanations data) true in
  if negb (truthy text) || negb (truthy (strip U text)) then
    ({| status := 400; payload_of := ErrorText (lit "Text is required") |}, [])
  else
    let result := enhance_text cfg g text tone show_explanations in
    let calls := [{| c_text := text; c_tone := tone; c_show := show_explanations |}] in
    match e_error result with
    | Some e => ({| status := 500; payload_of := ErrorRaised e |}, calls)
    | None => ({| status := 200; payload_of := Result result |}, calls)
    end.

Record health := {
  h_status : str;
  h_timestamp : str;
  api_configured : bool
}.

(** [health_check], at the time [now] that [datetime.now().isoformat()]
    gives. *)
Definition health_check (cfg : config) (now : str) : health :=
  {| h_status := lit "healthy";
     h_timestamp := now;
     api_configured := key_configured cfg |}.

End Orchestrator.

End App.

(** * Properties *)

Import Re Local Json App.

(** ** The Local Corrector on the scenarios of the specification *)

Definition capital_i : improvement :=
  {| original := lit "i"; fixed := lit "I";
     reason := arrow "Capitalization: pronoun " "i" "I" |}.

(** *** Deduplication of the reported improvements *)

Section Dedup.

Variable U : UnicodeDB.

(** the key two improvements are compared by *)
Definition key (c : improvement) : str := lower U (original c).

Lemma NoDup_snoc {A : Type} (l : list A) (x : A) :
  NoDup l -> ~ In x l -> NoDup (l ++ [x]).
Proof.
  induction l as [|a l IH]; simpl; intros Hnd Hx.
  - constructor; [intros [] | constructor].
  - inversion Hnd as [|? ? Ha Hl]; subst. constructor.
    + rewrite in_app_iff. simpl. intros [H | [H | []]]; [tauto | subst; tauto].
    + apply IH; tauto.
Qed.

Lemma NoDup_firstn {A : Type} (n : nat) (l : list A) :
  NoDup l -> NoDup (firstn n l).
Proof.
  intros Hnd. rewrite <- (firstn_skipn n l) in Hnd.
  exact (NoDup_app_remove_r _ _ Hnd).
Qed.

Lemma record_keys (r : rule) (show : bool) (cs : list improvement)
    (m : rmatch_result) :
  NoDup (map key cs) -> NoDup (map key (record U r show cs m)).
Proof.
  intros Hnd. unfold record.
  destruct (negb _ && show); [|exact Hnd].
  destruct (existsb _ cs) eqn:Hex; [exact Hnd|].
  rewrite map_app. simpl. apply NoDup_snoc; [exact Hnd|].
  intros Hin. apply in_map_iff in Hin. destruct Hin as [c [Hk Hc]].
  assert (Ht : existsb
    (fun c0 => Str.eqb (lower U (original c0)) (lower U (m_text m))) cs = true).
  { apply existsb_exists. exists c. split; [exact Hc|].
    apply Str.eqb_eq. exact Hk. }
  congruence.
Qed.

Lemma records_keys (r : rule) (show : bool) (ms : list rmatch_result) :
  forall cs, NoDup (map key cs) ->
             NoDup (map key (fold_left (record U r show) ms cs)).
Proof.
  induction ms as [|m ms IH]; simpl; intros cs Hnd; [exact Hnd|].
  apply IH. now apply record_keys.
Qed.

Lemma rules_keys (show : bool) (rules : list rule) :
  forall st, NoDup (map key (fst st)) ->
             NoDup (map key (fst (fold_left (apply_rule U show) rules st))).
Proof.
  induction rules as [|r rules IH]; simpl; intros [cs t] Hnd; [exact Hnd|].
  apply IH. simpl. now apply records_keys.
Qed.

End Dedup.

(** C5: within one response no two improvements have the same original
    text up to case; on "i am i am" both pronouns are capitalised and
    exactly one improvement, for the original "i", is reported. *)
Theorem improvements_deduplicated (U : UnicodeDB) (text tone : str) (show : bool) :
  NoDup (map (fun c => lower U (original c))
             (improvements (local_payload U text tone show)))
  /\ local_payload U (lit "i am i am") tone true
     = {| correctedText := lit "I am I am"; improvements := [capital_i] |}.
Proof.
  split; [|vm_compute; reflexivity].
  unfold local_payload.
  pose proof (rules_keys U show grammar_rules ([], text)) as H.
  unfold run_rules.
  destruct (fold_left (apply_rule U show) grammar_rules ([], text)) as [cs t].
  cbn [improvements fst] in *. change (NoDup (map (key U) (firstn 10 cs))).
  rewrite <- firstn_map. apply NoDup_firstn. apply H. constructor.
Qed.

(** *** Spelling *)

Definition spelled (wrong right : string) : improvement :=
  {| original := lit wrong; fixed := lit right;
     reason := arrow "Spelling: " wrong right |}.

(** C6: "I recieve seperate occured events" is corrected to "I receive
    separate occurred events", with three improvements whose reasons are
    the descriptions of the three spelling rules, in table order. *)
Theorem spelling_scenario (U : UnicodeDB) (tone : str) :
  local_payload U (lit "I recieve seperate occured events") tone true
  = {| correctedText := lit "I receive separate occurred events";
       improvements := [spelled "recieve" "receive";
                        spelled "occured" "occurred";
                        spelled "seperate" "separate"] |}
  /\ map rule_reason
         [spelling "recieve" "receive"; spelling "occured" "occurred";
          spelling "seperate" "separate"]
     = map reason [spelled "recieve" "receive"; spelled "occured" "occurred";
                   spelled "seperate" "separate"]
  /\ firstn 3 (skipn 9 grammar_rules)
     = [spelling "recieve" "receive"; spelling "occured" "occurred";
        spelling "seperate" "separate"].
Proof. repeat split; vm_compute; reflexivity. Qed.

(** *** Rule ordering *)

Definition he_are : improvement :=
  {| original := lit "he are"; fixed := lit "he is";
     reason := arrow "Subject-verb agreement: " "are" "is" |}.

Definition their_going : improvement :=
  {| original := lit "their going"; fixed := lit "they're going";
     reason := arrow "Contraction: " "their" "they're" |}.

(** C3 (as the code has it): on "he are happy and their going home" the
    subject-verb rule and the their/they're rule both fire, and the
    corrected text is "he is happy and they're going home": the captured
    "he" keeps its lower case, no rule capitalises the start of a
    sentence. *)
Theorem rule_ordering_scenario (U : UnicodeDB) (tone : str) (show : bool) :
  correctedText
    (local_payload U (lit "he are happy and their going home") tone show)
  = lit "he is happy and they're going home"
  /\ improvements
       (local_payload U (lit "he are happy and their going home") tone true)
     = [he_are; their_going].
Proof. split; [destruct show|]; vm_compute; reflexivity. Qed.

(** C3 (as stated) fails: the corrected text is not "He is happy and
    they're going home". *)
Lemma rule_ordering_not_capitalised :
  correctedText
    (local_payload ascii_only (lit "he are happy and their going home") [] true)
  = lit "he is happy and they're going home"
  /\ Str.eqb
       (correctedText
          (local_payload ascii_only (lit "he are happy and their going home")
                         [] true))
       (lit "He is happy and they're going home") = false.
Proof. split; vm_compute; reflexivity. Qed.

(** *** The "there is/are" rule *)





(** ** The Local Corrector on every input *)

(** C9: the Local Corrector is a function of the text and the flag: the
    tone does not change its output (the JSON text it returns). *)
Theorem local_corrector_ignores_tone (U : UnicodeDB) (text tone1 tone2 : str)
    (show : bool) :
  apply_local_grammar_correction U text tone1 show
  = apply_local_grammar_correction U text tone2 show.
Proof. reflexivity. Qed.

Section NoExplanations.

Variable U : UnicodeDB.

Lemma record_silent (r : rule) (cs : list improvement) (m : rmatch_result) :
  record U r false cs m = cs.
Proof. unfold record. now rewrite andb_false_r. Qed.

Lemma records_silent (r : rule) (ms : list rmatch_result) :
  forall cs, fold_left (record U r false) ms cs = cs.
Proof.
  induction ms as [|m ms IH]; simpl; intros cs; [reflexivity|].
  now rewrite record_silent.
Qed.

Lemma rules_silent (rules : list rule) :
  forall st, fst (fold_left (apply_rule U false) rules st) = fst st.
Proof.
  induction rules as [|r rules IH]; simpl; intros [cs t]; [reflexivity|].
  rewrite IH. simpl. apply records_silent.
Qed.

Lemma local_silent (text tone : str) :
  improvements (local_payload U text tone false) = [].
Proof.
  unfold local_payload, run_rules.
  pose proof (rules_silent grammar_rules ([], text)) as H.
  destruct (fold_left _ _ _) as [cs t]. simpl in H. subst cs. reflexivity.
Qed.

Lemma local_bounded (text tone : str) (show : bool) :
  List.length (improvements (local_payload U text tone show)) <= 10.
Proof.
  unfold local_payload. destruct (run_rules _ _ _ _) as [cs t].
  cbn [improvements]. apply firstn_le_length.
Qed.

End NoExplanations.

(** ** The health endpoint *)

(** C8 (as stated) fails: a credential set to the empty text is neither
    unset nor the placeholder, and [api_configured] is false for it. *)
Lemma empty_credential_not_configured :
  api_configured
    (health_check {| HAS_GEMINI_SDK := true; env_GEMINI_API_KEY := Some [] |}
                  [])
  = false
  /\ Str.eqb [] placeholder = false.
Proof. split; reflexivity. Qed.

(** C8 (as the code has it): [api_configured] is false exactly when the
    credential is unset, is the empty text, or is the placeholder
    'your-api-key-here'; for every other value it is true. *)
Theorem health_api_configured (cfg : config) (now : str) :
  (api_configured (health_check cfg now) = false
   <-> env_GEMINI_API_KEY cfg = None
       \/ env_GEMINI_API_KEY cfg = Some []
       \/ env_GEMINI_API_KEY cfg = Some placeholder)
  /\ (api_configured (health_check cfg now) = true
      <-> exists k, env_GEMINI_API_KEY cfg = Some k
                    /\ Str.eqb k [] = false
                    /\ Str.eqb k placeholder = false).
Proof.
  unfold health_check, key_configured, GEMINI_API_KEY. cbn [api_configured].
  destruct (env_GEMINI_API_KEY cfg) as [k|].
  - destruct (Str.eqb k placeholder) eqn:E.
    + apply Str.eqb_eq in E. subst k. split; split.
      * intros _. right. right. reflexivity.
      * reflexivity.
      * discriminate.
      * intros [k [Hk [_ Hp]]]. injection Hk as <-.
        now rewrite Str.eqb_refl in Hp.
    + destruct k as [|d k].
      * split; split.
        -- intros _. right. left. reflexivity.
        -- reflexivity.
        -- discriminate.
        -- intros [k [Hk [Hn _]]]. injection Hk as <-. discriminate.
      * split; split.
        -- discriminate.
        -- intros [H|[H|H]]; [discriminate|discriminate|].
           assert (H' : d :: k = placeholder) by congruence.
           apply (proj2 (Str.eqb_eq _ _)) in H'. congruence.
        -- intros _. exists (d :: k). split; [reflexivity|].
           split; [|exact E]. unfold Str.eqb.
           destruct (list_eq_dec N.eq_dec (d :: k) []);
             [discriminate|reflexivity].
        -- reflexivity.
  - split; split.
    + intros _. left. reflexivity.
    + reflexivity.
    + discriminate.
    + intros [k [Hk _]]. discriminate.
Qed.

(** ** The request boundary *)

Section Blank.

Variable U : UnicodeDB.

(** a text of white space only (the empty text is one) *)
Definition whitespace_only (t : str) : bool := forallb (Chr.is_space U) t.

Lemma lstrip_nil (l : str) : lstrip U l = [] <-> whitespace_only l = true.
Proof.
  induction l as [|d l IH]; simpl; [tauto|].
  destruct (Chr.is_space U d); simpl; [exact IH|].
  split; discriminate.
Qed.

Lemma whitespace_only_lstrip (l : str) :
  whitespace_only (lstrip U l) = whitespace_only l.
Proof.
  induction l as [|d l IH]; simpl; [reflexivity|].
  destruct (Chr.is_space U d) eqn:E; simpl; [exact IH|].
  now rewrite E.
Qed.

Lemma whitespace_only_rev (l : str) :
  whitespace_only (rev l) = whitespace_only l.
Proof.
  unfold whitespace_only. induction l as [|d l IH]; simpl; [reflexivity|].
  rewrite forallb_app, IH. simpl. rewrite andb_true_r. apply andb_comm.
Qed.

Lemma strip_nil (t : str) : strip U t = [] <-> whitespace_only t = true.
Proof.
  unfold strip.
  rewrite <- whitespace_only_lstrip, <- whitespace_only_rev, <- lstrip_nil.
  split; intros H; [|now rewrite H].
  destruct (lstrip U (rev (lstrip U t))) as [|x l]; [reflexivity|].
  simpl in H. destruct (rev l); discriminate.
Qed.

Lemma truthy_strip (t : str) : truthy (strip U t) = negb (whitespace_only t).
Proof.
  destruct (whitespace_only t) eqn:E.
  - apply strip_nil in E. now rewrite E.
  - destruct (strip U t) eqn:S; [|reflexivity].
    apply strip_nil in S. congruence.
Qed.

(** the text field is missing, empty or white space only *)
Definition text_blank (data : request) : bool :=
  match r_text data with
  | None => true
  | Some t => whitespace_only t
  end.

End Blank.

(** C7: the handler answers 400 exactly when the text field is missing,
    empty or white space only; the body is then {error: "Text is
    required"} and [enhance_text] is not called; otherwise it is called
    once, with the text as sent and the defaults for what is absent. *)
Theorem api_enhance_text_required (U : UnicodeDB) (cfg : config) (g : genai)
    (data : request) :
  Nat.eqb (status (fst (api_enhance U cfg g data))) 400 = text_blank U data
  /\ (if text_blank U data
      then api_enhance U cfg g data
           = ({| status := 400;
                 payload_of := ErrorText (lit "Text is required") |}, [])
      else snd (api_enhance U cfg g data)
           = [{| c_text := or_default (r_text data) [];
                 c_tone := or_default (r_tone data) (lit "original");
                 c_show := or_default (r_showExplanations data) true |}]).
Proof.
  unfold api_enhance, text_blank.
  destruct (r_text data) as [t|]; simpl or_default.
  - rewrite truthy_strip, negb_involutive.
    destruct (whitespace_only U t) eqn:E.
    + rewrite orb_true_r. split; reflexivity.
    + assert (Ht : truthy t = true) by (destruct t; [discriminate|reflexivity]).
      rewrite Ht. simpl negb. simpl orb. cbv iota.
      destruct (e_error _); split; reflexivity.
  - simpl. split; reflexivity.
Qed.

(** ** What a substitution can and cannot do to a text *)

(** case analysis on the next search of a scan *)
Ltac case_match_at :=
  match goal with
  | |- context [match_at ?U ?r ?ma ?p] =>
      let m := fresh "m" in
      let E := fresh "E" in
      destruct (match_at U r ma p) as [m|] eqn:E
  end.

Section RegexFacts.

Variable U : UnicodeDB.

Lemma Forall_firstn {A : Type} (P : A -> Prop) (n : nat) (l : list A) :
  Forall P l -> Forall P (firstn n l).
Proof.
  intros H. rewrite <- (firstn_skipn n l) in H.
  now apply Forall_app in H.
Qed.

Lemma Forall_skipn {A : Type} (P : A -> Prop) (n : nat) (l : list A) :
  Forall P l -> Forall P (skipn n l).
Proof.
  intros H. rewrite <- (firstn_skipn n l) in H.
  now apply Forall_app in H.
Qed.

Lemma span_app (c q : str) : span (c ++ q) q = c.
Proof.
  unfold span. rewrite length_app.
  replace (List.length c + List.length q - List.length q)
    with (List.length c + 0) by lia.
  rewrite firstn_app_2. simpl. apply app_nil_r.
Qed.

Lemma span_firstn (from to : str) :
  span from to = firstn (List.length (span from to)) from.
Proof.
  unfold span. rewrite length_firstn.
  set (k := List.length from - List.length to).
  destruct (Nat.min_spec k (List.length from)) as [[_ ->]|[Hle ->]];
    [reflexivity|].
  now rewrite firstn_all, firstn_all2.
Qed.

(** *** Every character of the result comes from the subject or from the
    template *)

Section Preserved.

Variable P : N -> Prop.

Definition good_groups (g : groups) : Prop :=
  Forall (fun kv => Forall P (snd kv)) g.

Definition good_state (qg : pos * groups) : Prop :=
  Forall P (snd (fst qg)) /\ good_groups (snd qg).

Lemma plus_good (c : cset) (rest : str) :
  Forall P rest -> Forall (fun q => Forall P (snd q)) (plus U c rest).
Proof.
  induction rest as [|d t IH]; simpl; intros H; [constructor|].
  inversion H; subst. destruct (cmatch U c d); [|constructor].
  apply Forall_app. split; [now apply IH|]. now repeat constructor.
Qed.

Lemma rmatch_good (r : regex) :
  forall p g, good_state (p, g) -> Forall good_state (rmatch U r p g).
Proof.
  induction r as [|c|c| |r1 IH1 r2 IH2|r1 IH1 r2 IH2|n r1 IH1];
    intros p g [Hp Hg]; simpl in *.
  - repeat constructor; assumption.
  - destruct (snd p) as [|d t]; [constructor|].
    destruct (cmatch U c d); [|constructor].
    inversion Hp; subst. repeat constructor; assumption.
  - apply Forall_map. eapply Forall_impl; [|apply plus_good; exact Hp].
    intros q Hq. split; assumption.
  - destruct (boundary U p); repeat constructor; assumption.
  - apply Forall_flat_map. eapply Forall_impl; [|apply IH1; split; eassumption].
    intros [q g'] Hq. apply IH2. exact Hq.
  - apply Forall_app. split; [apply IH1|apply IH2]; split; assumption.
  - apply Forall_map. eapply Forall_impl; [|apply IH1; split; eassumption].
    intros [q g'] [Hq Hg']. split; [exact Hq|]. simpl.
    constructor; [|exact Hg']. simpl. unfold span. now apply Forall_firstn.
Qed.

Definition good_match (m : rmatch_result) : Prop :=
  Forall P (m_text m) /\ good_groups (m_groups m).

Lemma match_at_in (r : regex) (ma : bool) (p : pos) (m : rmatch_result) :
  match_at U r ma p = Some m ->
  exists qg, In qg (rmatch U r p []) /\ m = result_at p qg
             /\ (ma = true -> m_text m <> []).
Proof.
  unfold match_at. intros H. apply find_some in H. destruct H as [Hin Hok].
  apply in_map_iff in Hin. destruct Hin as [qg [Hm Hin]].
  exists qg. repeat split; [exact Hin|now symmetry|].
  intros -> Hnil. rewrite Hnil in Hok. discriminate.
Qed.

Lemma match_at_good (r : regex) (ma : bool) (p : pos) (m : rmatch_result) :
  Forall P (snd p) -> match_at U r ma p = Some m -> good_match m.
Proof.
  intros Hp H. apply match_at_in in H. destruct H as [qg [Hin [-> _]]].
  pose proof (rmatch_good r (p:=p) (g:=[])) as Hg.
  rewrite Forall_forall in Hg. destruct (Hg (conj Hp (Forall_nil _)) qg Hin).
  split; simpl; [unfold span; now apply Forall_firstn|assumption].
Qed.

Definition good_segment (sg : segment) : Prop :=
  match sg with
  | Keep d => P d
  | Hit m => good_match m
  end.

Lemma scan_good (r : regex) (rest : str) :
  forall prev skip, Forall P rest -> Forall good_segment (scan U r prev rest skip).
Proof.
  induction rest as [|d t IH]; intros prev skip H; cbn [scan].
  - case_match_at; [|constructor].
    constructor; [|constructor]. eapply match_at_good; [|eassumption]. exact H.
  - inversion H as [|? ? Hd Ht]; subst. destruct skip as [|k]; [|now apply IH].
    cbv zeta. case_match_at.
    + assert (Hm : good_match m) by (eapply match_at_good; [|eassumption]; exact H).
      destruct (Nat.eqb (List.length (m_text m)) 0).
      * case_match_at.
        -- constructor; [exact Hm|]. constructor; [|now apply IH].
           eapply match_at_good; [|eassumption]. exact H.
        -- constructor; [exact Hm|]. constructor; [exact Hd|now apply IH].
      * constructor; [exact Hm|now apply IH].
    + constructor; [exact Hd|now apply IH].
Qed.

Definition good_template (t : template) : Prop :=
  Forall (fun i => match i with TLit s => Forall P s | TGroup _ => True end) t.

Lemma group_good (n : nat) (g : groups) : good_groups g -> Forall P (group n g).
Proof.
  induction g as [|[k s] g IH]; simpl; intros H; [constructor|].
  inversion H; subst. destruct (Nat.eqb k n); [assumption|now apply IH].
Qed.

Lemma expand_good (t : template) (m : rmatch_result) :
  good_template t -> good_match m -> Forall P (expand t m).
Proof.
  intros Ht [_ Hg]. unfold expand. apply Forall_flat_map.
  eapply Forall_impl; [|exact Ht]. intros [s|n] Hi; simpl; [exact Hi|].
  now apply group_good.
Qed.

Lemma sub_good (r : regex) (t : template) (s : str) :
  good_template t -> Forall P s -> Forall P (sub U r t s).
Proof.
  intros Ht Hs. unfold sub. apply Forall_flat_map.
  eapply Forall_impl; [|apply scan_good; exact Hs].
  intros [d|m] Hsg; simpl in *; [now repeat constructor|].
  now apply expand_good.
Qed.

Lemma finditer_good (r : regex) (s : str) :
  Forall P s -> Forall good_match (finditer U r s).
Proof.
  intros Hs. unfold finditer. apply Forall_flat_map.
  eapply Forall_impl; [|apply scan_good; exact Hs].
  intros [d|m] Hsg; simpl in *; [constructor|].
  constructor; [exact Hsg|constructor].
Qed.

End Preserved.

(** *** A scan cuts the subject into pieces *)

Definition source (sg : segment) : str :=
  match sg with
  | Keep d => [d]
  | Hit m => m_text m
  end.

Lemma match_at_text (r : regex) (ma : bool) (prev : option N) (rest : str)
    (m : rmatch_result) :
  match_at U r ma (prev, rest) = Some m ->
  m_text m = firstn (List.length (m_text m)) rest
  /\ (ma = true -> List.length (m_text m) <> 0).
Proof.
  intros H. apply match_at_in in H. destruct H as [qg [_ [-> Hadv]]].
  split; [apply span_firstn|].
  intros Hma Hlen. apply (Hadv Hma). now apply length_zero_iff_nil.
Qed.

Lemma firstn_skipn_pred (n : nat) (d : N) (t : str) :
  n <> 0 -> firstn n (d :: t) ++ skipn (n - 1) t = d :: t.
Proof.
  destruct n as [|n]; [congruence|]. intros _. simpl.
  rewrite Nat.sub_0_r. now rewrite firstn_skipn.
Qed.

Lemma scan_cover (r : regex) (rest : str) :
  forall prev skip,
    flat_map source (scan U r prev rest skip) = skipn skip rest.
Proof.
  induction rest as [|d t IH]; intros prev skip; cbn [scan].
  - rewrite skipn_nil. case_match_at; [|reflexivity].
    apply match_at_text in E. destruct E as [E _]. simpl.
    rewrite E, firstn_nil. reflexivity.
  - destruct skip as [|k]; [|apply IH]. cbv zeta. case_match_at.
    + destruct (match_at_text _ _ _ _ E) as [Ht _].
      destruct (Nat.eqb (List.length (m_text m)) 0) eqn:Elen.
      * apply Nat.eqb_eq in Elen. rewrite Elen in Ht. simpl in Ht.
        case_match_at; simpl; rewrite Ht; simpl.
        -- destruct (match_at_text _ _ _ _ E0) as [Ht0 Hadv].
           rewrite IH. rewrite Ht0 at 1.
           apply firstn_skipn_pred. now apply Hadv.
        -- now rewrite IH.
      * apply Nat.eqb_neq in Elen. simpl. rewrite IH. rewrite Ht at 1.
        now apply firstn_skipn_pred.
    + simpl. now rewrite IH.
Qed.

(** *** A match consists of characters the pattern accepts *)

Section Consumed.

Variable Q : N -> Prop.

Definition cset_within (c : cset) : Prop :=
  forall d, cmatch U c d = true -> Q d.

Fixpoint regex_within (r : regex) : Prop :=
  match r with
  | REps | RBound => True
  | RChar c | RPlus c => cset_within c
  | RSeq r1 r2 | RAlt r1 r2 => regex_within r1 /\ regex_within r2
  | RGroup _ r1 => regex_within r1
  end.

Definition consumed (p q : pos) : Prop :=
  exists c, snd p = c ++ snd q /\ Forall Q c.

Lemma plus_consumed (c : cset) (rest : str) (prev : option N) :
  cset_within c ->
  Forall (fun q => consumed (prev, rest) q) (plus U c rest).
Proof.
  intros Hc. revert prev. induction rest as [|d t IH]; intros prev; simpl;
    [constructor|].
  destruct (cmatch U c d) eqn:E; [|constructor].
  apply Forall_app. split.
  - eapply Forall_impl; [|apply (IH (Some d))].
    intros q [x [Hx HQ]]. exists (d :: x). simpl in *. split; [now f_equal|].
    constructor; [now apply Hc|exact HQ].
  - constructor; [|constructor]. exists [d]. split; [reflexivity|].
    constructor; [now apply Hc|constructor].
Qed.

Lemma rmatch_consumed (r : regex) :
  regex_within r ->
  forall p g, Forall (fun qg => consumed p (fst qg)) (rmatch U r p g).
Proof.
  induction r as [|c|c| |r1 IH1 r2 IH2|r1 IH1 r2 IH2|n r1 IH1];
    intros Hr p g; simpl in *.
  - constructor; [|constructor]. now exists [].
  - destruct p as [prev rest]. simpl. destruct rest as [|d t]; [constructor|].
    destruct (cmatch U c d) eqn:E; [|constructor].
    constructor; [|constructor]. exists [d]. split; [reflexivity|].
    constructor; [now apply Hr|constructor].
  - apply Forall_map. destruct p as [prev rest]. simpl.
    now apply plus_consumed.
  - destruct (boundary U p); [|constructor].
    constructor; [|constructor]. now exists [].
  - destruct Hr as [H1 H2]. apply Forall_flat_map.
    eapply Forall_impl; [|apply (IH1 H1)].
    intros [q g'] [x [Hx HQx]]. eapply Forall_impl; [|apply (IH2 H2)].
    intros [q' g''] [y [Hy HQy]]. simpl in *. exists (x ++ y).
    split; [now rewrite Hx, Hy, app_assoc|]. apply Forall_app. now split.
  - destruct Hr as [H1 H2]. apply Forall_app. split; [now apply IH1|now apply IH2].
  - apply Forall_map. eapply Forall_impl; [|apply (IH1 Hr)].
    intros [q g'] H. exact H.
Qed.

Lemma match_at_within (r : regex) (ma : bool) (p : pos) (m : rmatch_result) :
  regex_within r -> match_at U r ma p = Some m -> Forall Q (m_text m).
Proof.
  intros Hr H. apply match_at_in in H. destruct H as [qg [Hin [-> _]]].
  pose proof (rmatch_consumed r Hr p []) as Hc.
  rewrite Forall_forall in Hc. destruct (Hc qg Hin) as [x [Hx HQ]].
  simpl. rewrite Hx, span_app. exact HQ.
Qed.

Lemma scan_within (r : regex) (rest : str) :
  regex_within r ->
  forall prev skip,
    Forall (fun sg => match sg with
                      | Hit m => Forall Q (m_text m)
                      | Keep _ => True
                      end) (scan U r prev rest skip).
Proof.
  intros Hr. induction rest as [|d t IH]; intros prev skip; cbn [scan].
  - case_match_at; [|constructor].
    constructor; [|constructor]. eapply match_at_within; eassumption.
  - destruct skip as [|k]; [|apply IH]. cbv zeta. case_match_at.
    + assert (Hm : Forall Q (m_text m)) by (eapply match_at_within; eassumption).
      destruct (Nat.eqb (List.length (m_text m)) 0).
      * case_match_at.
        -- constructor; [exact Hm|]. constructor; [|apply IH].
           eapply match_at_within; eassumption.
        -- constructor; [exact Hm|]. constructor; [exact I|apply IH].
      * constructor; [exact Hm|apply IH].
    + constructor; [exact I|apply IH].
Qed.

End Consumed.

End RegexFacts.

(** ** The rule table keeps a text well formed and never erases it *)

(** A code point of Python: below 0x110000. *)
Definition valid (c : N) : Prop := (c <? 1114112)%N = true.

Definition template_valid (t : template) : bool :=
  forallb (fun i => match i with
                    | TLit s => forallb (fun c => (c <? 1114112)%N) s
                    | TGroup _ => true
                    end) t.

Definition rule_valid (r : rule) : bool :=
  template_valid (replacement r)
  && forallb (fun c => (c <? 1114112)%N) (rule_reason r).

(** visible on its own: an ASCII character that is not white space *)
Definition plain_char (x : N) : bool :=
  Chr.is_ascii x && negb (Chr.ascii_space x).

Definition template_solid (t : template) : bool :=
  existsb (fun i => match i with
                    | TLit s => existsb plain_char s
                    | TGroup _ => false
                    end) t.

Definition cset_spaces (c : cset) : bool :=
  match c with
  | CSpace => true
  | CLit p => (p =? 32)%N
  | CSet _ => false
  end.

Fixpoint only_spaces (r : regex) : bool :=
  match r with
  | REps | RBound => true
  | RChar c | RPlus c => cset_spaces c
  | RSeq r1 r2 | RAlt r1 r2 => only_spaces r1 && only_spaces r2
  | RGroup _ r1 => only_spaces r1
  end.

(** A rule cannot erase a text: its replacement shows a plain character,
    or it only ever matches white space. *)
Definition safe_rule (r : rule) : bool :=
  template_solid (replacement r) || only_spaces (pattern r).

Section Pipeline.

Variable U : UnicodeDB.

(** a text with a character that is not white space *)
Definition solid (s : str) : Prop :=
  exists d, In d s /\ Chr.is_space U d = false.

Lemma template_valid_good (t : template) :
  template_valid t = true -> good_template valid t.
Proof.
  unfold template_valid, good_template. rewrite forallb_forall, Forall_forall.
  intros H i Hi. specialize (H i Hi). destruct i as [s|n]; [|exact I].
  apply Forall_forall. rewrite forallb_forall in H. exact H.
Qed.

Definition improvement_valid (c : improvement) : Prop :=
  Forall valid (original c) /\ Forall valid (fixed c) /\ Forall valid (reason c).

Lemma record_valid (r : rule) (show : bool) (cs : list improvement)
    (m : rmatch_result) :
  rule_valid r = true -> good_match valid m ->
  Forall improvement_valid cs ->
  Forall improvement_valid (record U r show cs m).
Proof.
  intros Hr [Hm _] Hcs. unfold record.
  destruct (negb _ && show); [|exact Hcs].
  destruct (existsb _ cs); [exact Hcs|].
  apply Forall_app. split; [exact Hcs|]. constructor; [|constructor].
  apply andb_prop in Hr. destruct Hr as [Ht Hreason].
  repeat split; simpl.
  - exact Hm.
  - apply sub_good; [now apply template_valid_good|exact Hm].
  - apply Forall_forall. rewrite forallb_forall in Hreason. exact Hreason.
Qed.

Lemma records_valid (r : rule) (show : bool) (ms : list rmatch_result) :
  rule_valid r = true -> Forall (good_match valid) ms ->
  forall cs, Forall improvement_valid cs ->
             Forall improvement_valid (fold_left (record U r show) ms cs).
Proof.
  intros Hr. induction ms as [|m ms IH]; simpl; intros Hms cs Hcs; [exact Hcs|].
  inversion Hms; subst. apply IH; [assumption|]. now apply record_valid.
Qed.

Definition state_valid (st : list improvement * str) : Prop :=
  Forall improvement_valid (fst st) /\ Forall valid (snd st).

Lemma rules_valid (show : bool) (rules : list rule) :
  forallb rule_valid rules = true ->
  forall st, state_valid st ->
             state_valid (fold_left (apply_rule U show) rules st).
Proof.
  induction rules as [|r rules IH]; simpl; intros Hrs [cs t] [Hcs Ht];
    [now split|].
  apply andb_prop in Hrs. destruct Hrs as [Hr Hrs]. apply IH; [exact Hrs|].
  simpl in *. split; simpl.
  - apply records_valid; [exact Hr| |exact Hcs]. now apply finditer_good.
  - apply sub_good; [|exact Ht]. apply template_valid_good.
    now apply andb_prop in Hr.
Qed.

Lemma cset_spaces_within (c : cset) :
  cset_spaces c = true ->
  cset_within U (fun d => Chr.is_space U d = true) c.
Proof.
  destruct c as [p|ps|]; simpl; intros H d Hd; try discriminate; [|exact Hd].
  apply N.eqb_eq in H. subst p. simpl in Hd. unfold Chr.ci_eq in Hd.
  unfold Chr.is_space. destruct (Chr.is_ascii d); [|discriminate].
  apply N.eqb_eq in Hd. unfold Chr.ascii_lower in Hd.
  destruct (Chr.is_upper d) eqn:Eu.
  - unfold Chr.is_upper, Chr.between in Eu. simpl in Hd.
    apply andb_prop in Eu. destruct Eu as [Eu _]. apply N.leb_le in Eu. lia.
  - simpl in Hd. subst d. reflexivity.
Qed.

Lemma only_spaces_within (r : regex) :
  only_spaces r = true ->
  regex_within U (fun d => Chr.is_space U d = true) r.
Proof.
  induction r; simpl; intros H; try exact I;
    try (now apply cset_spaces_within);
    try (apply andb_prop in H; destruct H; split; auto); auto.
Qed.

Lemma plain_char_not_space (x : N) :
  plain_char x = true -> Chr.is_space U x = false.
Proof.
  unfold plain_char, Chr.is_space. intros H. apply andb_prop in H.
  destruct H as [-> H]. now apply negb_true_iff.
Qed.

Lemma sub_solid (r : rule) (s : str) :
  safe_rule r = true -> solid s ->
  solid (sub U (pattern r) (replacement r) s).
Proof.
  intros Hsafe [d [Hd Hsp]].
  pose proof (scan_cover U (pattern r) s None 0) as Hcov. simpl in Hcov.
  rewrite <- Hcov in Hd. apply in_flat_map in Hd.
  destruct Hd as [sg [Hsg Hin]]. unfold sub.
  destruct sg as [x|m]; simpl in Hin.
  - destruct Hin as [->|[]]. exists d. split; [|exact Hsp].
    apply in_flat_map. exists (Keep d). split; [exact Hsg|now left].
  - apply orb_prop in Hsafe. destruct Hsafe as [Ht|Ho].
    + unfold template_solid in Ht. apply existsb_exists in Ht.
      destruct Ht as [[l|n] [Hi Hl]]; [|discriminate].
      apply existsb_exists in Hl. destruct Hl as [x [Hx Hplain]].
      exists x. split; [|now apply plain_char_not_space].
      apply in_flat_map. exists (Hit m). split; [exact Hsg|].
      unfold expand. apply in_flat_map. exists (TLit l). now split.
    + pose proof (@scan_within U _ (pattern r) s (only_spaces_within _ Ho) None 0)
        as Hw.
      rewrite Forall_forall in Hw. specialize (Hw _ Hsg). simpl in Hw.
      rewrite Forall_forall in Hw. specialize (Hw d Hin). congruence.
Qed.

Lemma rules_solid (show : bool) (rules : list rule) :
  forallb safe_rule rules = true ->
  forall st, solid (snd st) ->
             solid (snd (fold_left (apply_rule U show) rules st)).
Proof.
  induction rules as [|r rules IH]; simpl; intros Hrs [cs t] Ht; [exact Ht|].
  apply andb_prop in Hrs. destruct Hrs as [Hr Hrs]. apply IH; [exact Hrs|].
  simpl in *. now apply sub_solid.
Qed.

Lemma solid_strip (s : str) : solid s -> strip U s <> [].
Proof.
  intros [d [Hd Hsp]] Hnil. apply strip_nil in Hnil.
  unfold whitespace_only in Hnil. rewrite forallb_forall in Hnil.
  specialize (Hnil d Hd). congruence.
Qed.

Lemma strip_valid (s : str) : Forall valid s -> Forall valid (strip U s).
Proof.
  assert (Hl : forall l, Forall valid l -> Forall valid (lstrip U l)).
  { induction l as [|d l IH]; simpl; intros H; [constructor|].
    destruct (Chr.is_space U d); [|exact H]. inversion H; subst. now apply IH. }
  intros H. unfold strip. apply Forall_rev, Hl, Forall_rev, Hl, H.
Qed.

(** The payload of the Local Corrector is made of code points, and its
    corrected text is not empty when the text has a character that is not
    white space. *)
Definition payload_valid (p : payload) : Prop :=
  Forall valid (correctedText p) /\ Forall improvement_valid (improvements p).

Lemma local_payload_valid (text tone : str) (show : bool) :
  Forall valid text -> payload_valid (local_payload U text tone show).
Proof.
  intros Ht. unfold local_payload, run_rules.
  assert (Hrules : forallb rule_valid grammar_rules = true)
    by (vm_compute; reflexivity).
  pose proof (rules_valid show grammar_rules Hrules (st:=([], text))
                (conj (Forall_nil _) Ht)) as [Hcs Hc].
  destruct (fold_left _ _ _) as [cs t]. unfold state_valid in *.
  cbn [fst snd] in *. split; cbn [correctedText improvements].
  - now apply strip_valid.
  - now apply Forall_firstn.
Qed.

Lemma local_payload_solid (text tone : str) (show : bool) :
  solid text -> correctedText (local_payload U text tone show) <> [].
Proof.
  intros Ht. unfold local_payload, run_rules.
  assert (Hrules : forallb safe_rule grammar_rules = true)
    by (vm_compute; reflexivity).
  pose proof (rules_solid show grammar_rules Hrules ([], text) Ht) as Hs.
  destruct (fold_left _ _ _) as [cs t]. cbn [fst snd correctedText] in *.
  now apply solid_strip.
Qed.

End Pipeline.

(** ** [json.loads] reads back what [json.dumps] wrote *)

Ltac Zify.zify_post_hook ::= Z.to_euclidean_division_equations.

(** decide a goal on the surrogate ranges by arithmetic *)
Ltac ranges :=
  unfold is_high, is_low, Chr.between in *;
  repeat match goal with
         | |- context [(?a <=? ?c)%N] => destruct (N.leb_spec a c)
         | H : context [(?a <=? ?c)%N] |- _ => destruct (N.leb_spec a c)
         end;
  cbn [andb] in *; try reflexivity; try discriminate; try lia;
  try (exfalso; lia).

Section RoundTrip.

Local Open Scope N_scope.

(** What a string reads back as: an escaped high surrogate followed by an
    escaped low surrogate is read as the one code point of the pair. *)
Fixpoint joined (s : str) : str :=
  match s with
  | [] => []
  | c :: t =>
      match t with
      | c2 :: t' =>
          if is_high c && is_low c2 then join c c2 :: joined t'
          else c :: joined t
      | [] => [c]
      end
  end.

Lemma joined_other (c : N) (t : str) :
  is_high c = false -> joined (c :: t) = c :: joined t.
Proof. intros H. destruct t; simpl; [reflexivity|]. now rewrite H. Qed.

Lemma joined_nil_iff (s : str) : joined s = [] <-> s = [].
Proof.
  destruct s as [|c [|c2 t]]; simpl; try tauto.
  destruct (is_high c && is_low c2); split; discriminate.
Qed.

Lemma hex_val_digit (n : N) : n < 16 -> hex_val (hex_digit n) = Some n.
Proof.
  intros H. destruct n as [|p]; [reflexivity|].
  do 4 (destruct p as [p|p|]; try reflexivity); lia.
Qed.

Lemma read_hex4_digits (c : N) (rest : str) :
  c < 65536 ->
  read_hex4 (hex_digit (c / 4096) :: hex_digit ((c / 256) mod 16)
             :: hex_digit ((c / 16) mod 16) :: hex_digit (c mod 16) :: rest)
  = Some (c, rest).
Proof.
  intros H. unfold read_hex4.
  rewrite !hex_val_digit by lia. do 2 f_equal. lia.
Qed.

(** the shapes of an escaped character *)
Inductive escaped (c : N) : str -> Prop :=
| EscSimple (e : N) :
    (e =? 117) = false -> simple_escape e = Some c -> c < 128 ->
    escaped c [92; e]
| EscPlain :
    (c =? 34) = false -> (c =? 92) = false -> (c <? 32) = false ->
    c < 128 -> escaped c [c]
| EscHex : c < 65536 -> escaped c (hex4 c)
| EscPair :
    65536 <= c -> c < 1114112 ->
    escaped c (hex4 (55296 + (c - 65536) / 1024)
               ++ hex4 (56320 + (c - 65536) mod 1024)).

Lemma escape_char_escaped (c : N) : valid c -> escaped c (escape_char c).
Proof.
  unfold valid, escape_char. intros Hc. apply N.ltb_lt in Hc.
  destruct (N.eqb_spec c 92); [subst; now apply EscSimple|].
  destruct (N.eqb_spec c 34); [subst; now apply EscSimple|].
  destruct (N.eqb_spec c 8); [subst; now apply EscSimple|].
  destruct (N.eqb_spec c 12); [subst; now apply EscSimple|].
  destruct (N.eqb_spec c 10); [subst; now apply EscSimple|].
  destruct (N.eqb_spec c 13); [subst; now apply EscSimple|].
  destruct (N.eqb_spec c 9); [subst; now apply EscSimple|].
  destruct (N.leb_spec 32 c); destruct (N.leb_spec c 126); cbn [andb].
  - apply EscPlain; try (apply N.eqb_neq; assumption); [apply N.ltb_ge|]; lia.
  - destruct (N.ltb_spec c 65536); [now apply EscHex|now apply EscPair].
  - destruct (N.ltb_spec c 65536); [now apply EscHex|now apply EscPair].
  - lia.
Qed.

Lemma escape_char_length (c : N) : (1 <= List.length (escape_char c))%nat.
Proof.
  unfold escape_char.
  repeat match goal with |- context [if ?b then _ else _] => destruct b end;
    simpl; lia.
Qed.

Lemma escape_length (s : str) :
  (List.length s <= List.length (flat_map escape_char s))%nat.
Proof.
  induction s as [|c s IH]; simpl; [lia|].
  rewrite length_app. pose proof (escape_char_length c). lia.
Qed.

Lemma peek_low_quote (rest : str) : peek_low (34 :: rest) = None.
Proof. now destruct rest. Qed.

Lemma peek_low_escaped (c : N) (rest : str) :
  valid c ->
  peek_low (escape_char c ++ rest) = if is_low c then Some (c, rest) else None.
Proof.
  intros Hc. destruct (escape_char_escaped Hc) as [e He Hs Hlt|H1 H2 H3 Hlt|Hlt|Hge Hlt].
  - simpl. rewrite He. simpl. replace (is_low c) with false by (symmetry; ranges).
    reflexivity.
  - replace (is_low c) with false by (symmetry; ranges).
    simpl. destruct rest; [reflexivity|]. now rewrite H2.
  - unfold hex4, peek_low. cbn [app]. rewrite !N.eqb_refl. cbn [andb].
    now rewrite read_hex4_digits.
  - unfold hex4 at 1. unfold peek_low. cbn [app]. rewrite !N.eqb_refl.
    cbn [andb]. rewrite read_hex4_digits by lia.
    replace (is_low (55296 + (c - 65536) / 1024)) with false
      by (symmetry; ranges).
    replace (is_low c) with false by (symmetry; ranges). reflexivity.
Qed.

(** One step of the scanner reads one escaped character, or the two of a
    surrogate pair. *)
Lemma scanstring_escaped (c : N) (fuel : nat) (rest acc : str) :
  valid c ->
  scanstring (S fuel) (escape_char c ++ rest) acc
  = if is_high c then
      match peek_low rest with
      | Some (lo, rest') => scanstring fuel rest' (join c lo :: acc)
      | None => scanstring fuel rest (c :: acc)
      end
    else scanstring fuel rest (c :: acc).
Proof.
  intros Hc. destruct (escape_char_escaped Hc) as [e He Hs Hlt|H1 H2 H3 Hlt|Hlt|Hge Hlt].
  - replace (is_high c) with false by (symmetry; ranges).
    cbn [app scanstring]. change (92 =? 34) with false.
    change (92 =? 92) with true. cbv iota. now rewrite He, Hs.
  - replace (is_high c) with false by (symmetry; ranges).
    cbn [app scanstring]. now rewrite H1, H2, H3.
  - unfold hex4. cbn [app scanstring]. change (92 =? 34) with false.
    change (92 =? 92) with true. change (117 =? 117) with true. cbv iota.
    unfold read_unicode. rewrite read_hex4_digits by exact Hlt.
    destruct (is_high c); [|reflexivity]. now destruct (peek_low rest) as [[lo r]|].
  - replace (is_high c) with false by (symmetry; ranges).
    unfold hex4 at 1. cbn [app scanstring]. change (92 =? 34) with false.
    change (92 =? 92) with true. change (117 =? 117) with true. cbv iota.
    unfold read_unicode. rewrite read_hex4_digits by lia.
    replace (is_high (55296 + (c - 65536) / 1024)) with true
      by (symmetry; ranges).
    unfold hex4, peek_low. cbn [app]. rewrite !N.eqb_refl. cbn [andb].
    rewrite read_hex4_digits by lia.
    replace (is_low (56320 + (c - 65536) mod 1024)) with true
      by (symmetry; ranges).
    do 2 f_equal. unfold join. lia.
Qed.

Lemma scanstring_quote (fuel : nat) (rest acc : str) :
  scanstring (S fuel) (34 :: rest) acc = Some (rev acc, rest).
Proof. reflexivity. Qed.

Lemma scanstring_dump (n : nat) :
  forall s, (List.length s <= n)%nat -> Forall valid s ->
  forall fuel rest acc, (List.length s < fuel)%nat ->
    scanstring fuel (flat_map escape_char s ++ 34 :: rest) acc
    = Some (rev acc ++ joined s, rest).
Proof.
  induction n as [|n IH]; intros s Hn Hs fuel rest acc Hf.
  - destruct s; [|simpl in Hn; lia]. destruct fuel; [lia|].
    simpl. now rewrite app_nil_r.
  - destruct s as [|c t].
    { destruct fuel; [lia|]. simpl. now rewrite app_nil_r. }
    inversion Hs as [|? ? Hc Ht]; subst. simpl in Hn, Hf.
    destruct fuel as [|fuel]; [lia|].
    cbn [flat_map]. rewrite <- app_assoc, scanstring_escaped by exact Hc.
    destruct (is_high c) eqn:Eh.
    + destruct t as [|c2 t'].
      * cbn [flat_map app]. rewrite peek_low_quote.
        destruct fuel; [lia|]. rewrite scanstring_quote. simpl.
        reflexivity.
      * inversion Ht as [|? ? Hc2 Ht']; subst. simpl in Hn, Hf.
        cbn [flat_map]. rewrite <- app_assoc, peek_low_escaped by exact Hc2.
        destruct (is_low c2) eqn:El.
        -- rewrite IH by (assumption || lia).
           cbn [joined]. rewrite Eh, El. simpl. now rewrite <- app_assoc.
        -- rewrite app_assoc.
           change (escape_char c2 ++ flat_map escape_char t')
             with (flat_map escape_char (c2 :: t')).
           rewrite IH by (assumption || simpl; lia).
           cbn [joined]. rewrite Eh, El. simpl. now rewrite <- app_assoc.
    + rewrite IH by (assumption || lia). rewrite joined_other by exact Eh.
      simpl. now rewrite <- app_assoc.
Qed.

Lemma scanstring_dump_str (s rest : str) :
  Forall valid s ->
  let t := flat_map escape_char s ++ 34 :: rest in
  scanstring (List.length t) t [] = Some (joined s, rest).
Proof.
  intros Hs t. unfold t.
  rewrite (@scanstring_dump (List.length s) s); try assumption; try lia.
  - reflexivity.
  - rewrite length_app. pose proof (escape_length s). simpl. lia.
Qed.

(** [txt] is the text of the value [j]: it starts with a quote, a brace or
    a bracket, and with [n] units of fuel the scanner reads [j] off it. *)
Record parses (n : nat) (txt : str) (j : json) : Prop := {
  p_head : exists d t, txt = d :: t /\ (d = 34 \/ d = 123 \/ d = 91);
  p_value : forall fuel rest, (n <= fuel)%nat ->
                              value fuel (txt ++ rest) = Some (j, rest)
}.

Lemma parses_skip_ws (n : nat) (txt : str) (j : json) (rest : str) :
  parses n txt j -> skip_ws (txt ++ rest) = txt ++ rest.
Proof.
  intros [[d [t [-> Hd]]] _]. now destruct Hd as [->|[->| ->]].
Qed.

Lemma dump_str_app (s rest : str) :
  dump_str s ++ rest = 34 :: flat_map escape_char s ++ 34 :: rest.
Proof. unfold dump_str, dq. simpl. now rewrite <- app_assoc. Qed.

Lemma parses_str (s : str) :
  Forall valid s -> parses 1 (dump_str s) (JStr (joined s)).
Proof.
  intros Hs. split.
  - exists 34, (flat_map escape_char s ++ [dq]). split; [reflexivity|now left].
  - intros fuel rest Hf. destruct fuel as [|fuel]; [lia|].
    rewrite dump_str_app. cbn [value]. change (34 =? 34) with true. cbv iota.
    now rewrite scanstring_dump_str.
Qed.

(** a member as written, with the value it stands for *)
Definition member := (str * str * json)%type.

Definition member_text (m : member) : str * str := fst m.
Definition member_value (m : member) : str * json :=
  (joined (fst (fst m)), snd m).

Definition member_parses (n : nat) (m : member) : Prop :=
  Forall valid (fst (fst m)) /\ parses n (snd (fst m)) (snd m).

Lemma members_eq (fuel : nat) (t : str) (acc : list (str * json)) :
  members (S fuel) (34 :: t) acc
  = match scanstring (List.length t) t [] with
    | None => None
    | Some (k, r) =>
        match skip_ws r with
        | 58 :: r1 =>
            match value fuel (skip_ws r1) with
            | None => None
            | Some (v, r2) =>
                match skip_ws r2 with
                | 125 :: r3 => Some (JObj (rev ((k, v) :: acc)), r3)
                | 44 :: r3 => members fuel (skip_ws r3) ((k, v) :: acc)
                | _ => None
                end
            end
        | _ => None
        end
    end.
Proof. reflexivity. Qed.

Lemma commas_cons2 (x y : str) (l : list str) :
  commas (x :: y :: l) = x ++ 44 :: 32 :: commas (y :: l).
Proof. reflexivity. Qed.

Lemma dump_member_app (k txt rest : str) :
  dump_member (k, txt) ++ rest
  = 34 :: flat_map escape_char k ++ 34 :: 58 :: 32 :: txt ++ rest.
Proof.
  unfold dump_member. cbn [fst snd].
  change (lit ": ") with [58%N; 32%N].
  rewrite <- app_assoc, dump_str_app. reflexivity.
Qed.

Lemma members_parse (n : nat) (ms : list member) :
  ms <> [] -> Forall (member_parses n) ms ->
  forall fuel acc rest, (n + List.length ms <= fuel)%nat ->
    members fuel (commas (map (fun m => dump_member (member_text m)) ms)
                  ++ 125 :: rest) acc
    = Some (JObj (rev acc ++ map member_value ms), rest).
Proof.
  induction ms as [|[[k txt] j] ms IH]; intros Hne Hms fuel acc rest Hf;
    [congruence|].
  inversion Hms as [|? ? [Hk Hp] Hms']; subst. simpl in Hk, Hp.
  simpl List.length in Hf. destruct fuel as [|fuel]; [lia|].
  destruct ms as [|m2 ms].
  - cbn [map commas member_text fst]. rewrite dump_member_app, members_eq.
    rewrite scanstring_dump_str by exact Hk.
    change (skip_ws (58 :: 32 :: txt ++ 125 :: rest))
      with (58 :: 32 :: txt ++ 125 :: rest). cbv iota.
    change (skip_ws (32 :: txt ++ 125 :: rest))
      with (skip_ws (txt ++ 125 :: rest)).
    rewrite (parses_skip_ws _ Hp), (p_value Hp) by lia.
    reflexivity.
  - cbn [map]. rewrite commas_cons2. cbn [member_text fst].
    rewrite <- app_assoc, dump_member_app, members_eq.
    rewrite scanstring_dump_str by exact Hk.
    match goal with
    | |- context [skip_ws (58 :: 32 :: ?X)] =>
        change (skip_ws (58 :: 32 :: X)) with (58 :: 32 :: X); cbv iota;
        change (skip_ws (32 :: X)) with (skip_ws X)
    end.
    rewrite <- !app_comm_cons.
    rewrite (parses_skip_ws _ Hp), (p_value Hp) by lia.
    match goal with
    | |- context [skip_ws (44 :: 32 :: ?X)] =>
        change (skip_ws (44 :: 32 :: X)) with (44 :: 32 :: X); cbv iota;
        change (skip_ws (32 :: X)) with (skip_ws X)
    end.
    change (commas (dump_member (member_text m2)
                    :: map (fun m => dump_member (member_text m)) ms))
      with (commas (map (fun m => dump_member (member_text m)) (m2 :: ms))).
    assert (Hskip : forall Y,
      skip_ws (commas (map (fun m => dump_member (member_text m)) (m2 :: ms)) ++ Y)
      = commas (map (fun m => dump_member (member_text m)) (m2 :: ms)) ++ Y).
    { intros Y. destruct m2 as [[k2 t2] j2]. cbn [map member_text fst].
      destruct ms; [cbn [map commas]|cbn [map]; rewrite commas_cons2, <- app_assoc];
        rewrite dump_member_app; reflexivity. }
    rewrite Hskip, IH; [|discriminate|exact Hms'|simpl List.length in *; lia].
    simpl. now rewrite <- app_assoc.
Qed.

Lemma elements_eq (fuel : nat) (s : str) (acc : list json) :
  elements (S fuel) s acc
  = match value fuel s with
    | None => None
    | Some (v, r) =>
        match skip_ws r with
        | 93 :: r' => Some (JArr (rev (v :: acc)), r')
        | 44 :: r' => elements fuel (skip_ws r') (v :: acc)
        | _ => None
        end
    end.
Proof. reflexivity. Qed.

Definition item_parses (n : nat) (it : str * json) : Prop :=
  parses n (fst it) (snd it).

Lemma commas_skip_ws (n : nat) (it : str * json) (items : list (str * json))
    (Y : str) :
  item_parses n it ->
  skip_ws (commas (map fst (it :: items)) ++ Y)
  = commas (map fst (it :: items)) ++ Y.
Proof.
  intros Hp. destruct items as [|it2 items]; cbn [map commas].
  - exact (parses_skip_ws _ Hp).
  - change (lit ", ") with [44; 32]. rewrite <- app_assoc.
    exact (parses_skip_ws _ Hp).
Qed.

Lemma elements_parse (n : nat) (items : list (str * json)) :
  items <> [] -> Forall (item_parses n) items ->
  forall fuel acc rest, (n + List.length items <= fuel)%nat ->
    elements fuel (commas (map fst items) ++ 93 :: rest) acc
    = Some (JArr (rev acc ++ map snd items), rest).
Proof.
  induction items as [|[txt j] items IH]; intros Hne Hit fuel acc rest Hf;
    [congruence|].
  inversion Hit as [|? ? Hp Hit']; subst. unfold item_parses in Hp.
  simpl in Hp. simpl List.length in Hf. destruct fuel as [|fuel]; [lia|].
  destruct items as [|it2 items].
  - cbn [map commas fst]. rewrite elements_eq, (p_value Hp) by lia.
    reflexivity.
  - cbn [map]. rewrite commas_cons2. cbn [fst].
    rewrite <- app_assoc, <- !app_comm_cons, elements_eq.
    rewrite (p_value Hp) by lia.
    match goal with
    | |- context [skip_ws (44 :: 32 :: ?X)] =>
        change (skip_ws (44 :: 32 :: X)) with (44 :: 32 :: X); cbv iota;
        change (skip_ws (32 :: X)) with (skip_ws X)
    end.
    change (commas (fst it2 :: map fst items))
      with (commas (map fst (it2 :: items))).
    inversion Hit' as [|? ? Hp2 _]; subst.
    rewrite (commas_skip_ws _ _ Hp2).
    rewrite IH; [|discriminate|exact Hit'|simpl List.length in *; lia].
    simpl. now rewrite <- app_assoc.
Qed.

Lemma parses_mono (n n' : nat) (txt : str) (j : json) :
  parses n txt j -> (n <= n')%nat -> parses n' txt j.
Proof.
  intros [Hh Hv] Hle. split; [exact Hh|].
  intros fuel rest Hf. apply Hv. lia.
Qed.

Lemma parses_arr (n : nat) (items : list (str * json)) :
  Forall (item_parses n) items ->
  parses (S (n + List.length items)) (dump_arr (map fst items))
         (JArr (map snd items)).
Proof.
  intros Hit. split.
  - exists 91, (commas (map fst items) ++ lit "]").
    split; [reflexivity|now right; right].
  - intros fuel rest Hf. destruct fuel as [|fuel]; [lia|].
    unfold dump_arr. change (lit "[") with [91]. change (lit "]") with [93].
    cbn [app]. rewrite <- app_assoc. cbn [app value].
    change (91 =? 34) with false. change (91 =? 123) with false.
    change (91 =? 91) with true. cbv iota.
    destruct items as [|it items]; [reflexivity|].
    inversion Hit as [|? ? Hp _]; subst.
    rewrite (commas_skip_ws _ _ Hp).
    destruct (p_head Hp) as [d [t [Ht Hd]]].
    assert (Hc : exists Z, commas (map fst (it :: items)) ++ 93 :: rest = d :: Z
                           /\ (d =? 93) = false).
    { destruct items; cbn [map commas]; rewrite Ht;
        eexists; (split; [reflexivity|now destruct Hd as [->|[->| ->]]]). }
    destruct Hc as [Z [HZ Hd93]]. rewrite HZ, Hd93, <- HZ.
    rewrite (elements_parse (n:=n)); [reflexivity|discriminate|exact Hit|lia].
Qed.

Lemma parses_obj (n : nat) (ms : list member) :
  ms <> [] -> Forall (member_parses n) ms ->
  parses (S (n + List.length ms)) (dump_obj (map member_text ms))
         (JObj (map member_value ms)).
Proof.
  intros Hne Hms. split.
  - exists 123, (commas (map dump_member (map member_text ms)) ++ lit "}").
    split; [reflexivity|now right; left].
  - intros fuel rest Hf. destruct fuel as [|fuel]; [lia|].
    unfold dump_obj. change (lit "{") with [123]. change (lit "}") with [125].
    cbn [app]. rewrite <- app_assoc, map_map. cbn [app value].
    change (123 =? 34) with false. change (123 =? 123) with true. cbv iota.
    assert (Hc : exists Z,
      commas (map (fun m => dump_member (member_text m)) ms) ++ 125 :: rest
      = 34 :: Z).
    { destruct ms as [|[[k txt] j] [|m2 ms]]; [congruence| |];
        cbn [map member_text fst];
        [cbn [commas]|rewrite commas_cons2, <- app_assoc];
        rewrite dump_member_app; eexists; reflexivity. }
    destruct Hc as [Z HZ]. rewrite HZ.
    change (skip_ws (34 :: Z)) with (34 :: Z). cbv iota.
    change (34 =? 125) with false. cbv iota. rewrite <- HZ.
    rewrite (members_parse (n:=n)); [reflexivity|exact Hne|exact Hms|lia].
Qed.

(** *** The payload of the Local Corrector *)

Definition joined_improvement (i : improvement) : improvement :=
  {| original := joined (original i);
     fixed := joined (fixed i);
     reason := joined (reason i) |}.

Definition joined_payload (p : payload) : payload :=
  {| correctedText := joined (correctedText p);
     improvements := map joined_improvement (improvements p) |}.

Lemma valid_forallb (s : str) :
  forallb (fun c => c <? 1114112) s = true -> Forall valid s.
Proof. intros H. apply Forall_forall. rewrite forallb_forall in H. exact H. Qed.

Lemma parses_improvement (i : improvement) :
  improvement_valid i ->
  parses 5 (dump_improvement i) (json_of_improvement (joined_improvement i)).
Proof.
  intros [Ho [Hf Hr]].
  apply (@parses_obj 1
           [(lit "original", dump_str (original i), JStr (joined (original i)));
            (lit "fixed", dump_str (fixed i), JStr (joined (fixed i)));
            (lit "reason", dump_str (reason i), JStr (joined (reason i)))]);
    [discriminate|].
  repeat constructor; simpl; try (apply valid_forallb; reflexivity);
    try (now apply p_head, parses_str); try (now apply parses_str).
Qed.

Lemma commas_length (l : list str) :
  Forall (fun x => x <> []) l -> (List.length l <= List.length (commas l))%nat.
Proof.
  induction l as [|x [|y l] IH]; intros H; simpl; [lia| |].
  - inversion H; subst. destruct x; [congruence|simpl; lia].
  - inversion H as [|? ? Hx Hl]; subst. specialize (IH Hl).
    rewrite !length_app. simpl in *. lia.
Qed.

Lemma parses_payload (p : payload) :
  payload_valid p ->
  parses (9 + List.length (improvements p)) (dump_payload p)
         (json_of_payload (joined_payload p)).
Proof.
  intros [Hc Hi].
  set (items := map (fun i => (dump_improvement i,
                               json_of_improvement (joined_improvement i)))
                    (improvements p)).
  assert (Hitems : parses (6 + List.length (improvements p))
                          (dump_arr (map dump_improvement (improvements p)))
                          (JArr (map json_of_improvement
                                     (improvements (joined_payload p))))).
  { replace (map dump_improvement (improvements p)) with (map fst items)
      by (unfold items; rewrite map_map; reflexivity).
    replace (map json_of_improvement (improvements (joined_payload p)))
      with (map snd items)
      by (unfold items, joined_payload; cbn [improvements];
          rewrite !map_map; reflexivity).
    replace (List.length (improvements p)) with (List.length items)
      by (unfold items; apply length_map).
    apply (@parses_arr 5). unfold items. apply Forall_map.
    eapply Forall_impl; [|exact Hi]. intros i Hv. now apply parses_improvement. }
  apply parses_mono with (n := S (6 + List.length (improvements p) + 2));
    [|lia].
  apply (@parses_obj (6 + List.length (improvements p))
           [(lit "correctedText", dump_str (correctedText p),
             JStr (joined (correctedText p)));
            (lit "improvements",
             dump_arr (map dump_improvement (improvements p)),
             JArr (map json_of_improvement (improvements (joined_payload p))))]);
    [discriminate|].
  constructor; [|constructor; [|constructor]]; split; cbn [fst snd].
  - apply valid_forallb. reflexivity.
  - apply parses_mono with (n := 1%nat); [now apply parses_str|lia].
  - apply valid_forallb. reflexivity.
  - exact Hitems.
Qed.

Lemma dump_payload_length (p : payload) :
  (List.length (improvements p) + 4 <= List.length (dump_payload p))%nat.
Proof.
  unfold dump_payload, dump_obj, dump_arr, dump_member. cbn [map commas fst snd].
  rewrite !length_app.
  assert (H : (List.length (improvements p)
               <= List.length (commas (map dump_improvement (improvements p))))%nat).
  { rewrite <- (length_map dump_improvement) at 1. apply commas_length.
    apply Forall_map, Forall_forall. intros i _. discriminate. }
  simpl. lia.
Qed.

(** Reading the JSON text of a payload gives the payload back, the
    surrogate pairs of its strings read as one code point each. *)
Theorem loads_dump_payload (p : payload) :
  payload_valid p ->
  loads (dump_payload p) = Some (json_of_payload (joined_payload p)).
Proof.
  intros Hp. pose proof (parses_payload Hp) as H. unfold loads.
  rewrite <- (app_nil_r (dump_payload p)) at 2.
  rewrite (parses_skip_ws _ H), (p_value H); [reflexivity|].
  pose proof (dump_payload_length p). lia.
Qed.

End RoundTrip.

(** ** The orchestrator *)

Section Orchestrated.

Variable U : UnicodeDB.

(** The result comes from the Local Corrector: the LLM is not configured,
    or calling it raised. *)
Definition takes_local_path (cfg : config) (g : genai)
    (text tone : str) (show : bool) : Prop :=
  HAS_GEMINI_SDK cfg && key_configured cfg = false
  \/ ask_gemini U g (prompt_of text tone show) = None.

(** The output of the Local Corrector, decoded. *)
Definition local_enhancement (text tone : str) (show : bool) : enhancement :=
  let p := joined_payload (local_payload U text tone show) in
  {| e_correctedText := JStr (correctedText p);
     e_improvements := JArr (map json_of_improvement (improvements p));
     e_error := None |}.

Lemma dump_payload_braces (p : payload) :
  exists Z, dump_payload p = 123%N :: Z ++ [125%N].
Proof.
  unfold dump_payload, dump_obj. change (lit "{") with [123%N].
  change (lit "}") with [125%N]. eexists. reflexivity.
Qed.

Lemma clean_fences_braces (Z : str) :
  clean_fences (123%N :: Z ++ [125%N]) = 123%N :: Z ++ [125%N].
Proof.
  unfold clean_fences.
  change (startswith (lit "```json") (123%N :: Z ++ [125%N])) with false.
  cbv iota. change (startswith fence (123%N :: Z ++ [125%N])) with false.
  cbv iota. unfold endswith.
  change (rev (123%N :: Z ++ [125%N])) with (rev (Z ++ [125%N]) ++ [123%N]).
  rewrite rev_app_distr. reflexivity.
Qed.

Lemma strip_braces (Z : str) :
  strip U (123%N :: Z ++ [125%N]) = 123%N :: Z ++ [125%N].
Proof.
  unfold strip.
  change (lstrip U (123%N :: Z ++ [125%N])) with (123%N :: Z ++ [125%N]).
  change (rev (123%N :: Z ++ [125%N])) with (rev (Z ++ [125%N]) ++ [123%N]).
  rewrite rev_app_distr.
  change (lstrip U ((rev [125%N] ++ rev Z) ++ [123%N]))
    with ((rev [125%N] ++ rev Z) ++ [123%N]).
  rewrite rev_app_distr, rev_app_distr, !rev_involutive. reflexivity.
Qed.

(** What [enhance_text] makes of the text the Local Corrector returned. *)
Lemma decode_local (text tone : str) (show : bool) :
  Forall valid text ->
  match loads (strip U (clean_fences
                          (apply_local_grammar_correction U text tone show))) with
  | None => errored text JSONDecodeError
  | Some (JObj result) =>
      {| e_correctedText := get (lit "correctedText") result (JStr text);
         e_improvements :=
           if show then get (lit "improvements") result (JArr []) else JArr [];
         e_error := None |}
  | Some _ => errored text AttributeError
  end = local_enhancement text tone show.
Proof.
  intros Ht. unfold apply_local_grammar_correction.
  pose proof (local_payload_valid U tone show Ht) as Hp.
  destruct (dump_payload_braces (local_payload U text tone show)) as [Z HZ].
  rewrite HZ, clean_fences_braces, strip_braces, <- HZ.
  rewrite (loads_dump_payload Hp). unfold local_enhancement, json_of_payload.
  cbv zeta. f_equal. destruct show; [reflexivity|].
  unfold joined_payload. cbn [improvements]. rewrite local_silent. reflexivity.
Qed.

Lemma enhance_text_local (cfg : config) (g : genai) (text tone : str)
    (show : bool) :
  Forall valid text -> takes_local_path cfg g text tone show ->
  enhance_text U cfg g text tone show = local_enhancement text tone show.
Proof.
  intros Ht Hl. unfold enhance_text.
  destruct Hl as [Hl|Hl]; rewrite Hl; [|destruct (_ && _)];
    now apply decode_local.
Qed.

End Orchestrated.

(** *** Concrete configurations *)

Definition cfg_on : config :=
  {| HAS_GEMINI_SDK := true;
     env_GEMINI_API_KEY := Some (lit "AIzaSy-real-key") |}.

Definition cfg_off : config :=
  {| HAS_GEMINI_SDK := false; env_GEMINI_API_KEY := None |}.

(** a service whose every call raises *)
Definition g_down : genai :=
  {| GenerativeModel := fun _ => true;
     generate_content := fun _ _ => None |}.

(** a service that answers every prompt with [reply] *)
Definition g_says (reply : str) : genai :=
  {| GenerativeModel := fun _ => true;
     generate_content := fun _ _ => Some reply |}.

(** *** Failures of the LLM path *)

(** C1 (as stated) fails: with the LLM configured and a reply that is not
    JSON, the caller gets the error result (the text unchanged and an error
    field), not the output of the Local Corrector, which capitalises both
    pronouns. *)
Lemma malformed_reply_is_an_error :
  enhance_text ascii_only cfg_on (g_says (lit "Sure! Here is the text."))
               (lit "i am i am") (lit "original") true
  = {| e_correctedText := JStr (lit "i am i am");
       e_improvements := JArr [];
       e_error := Some JSONDecodeError |}
  /\ e_correctedText (local_enhancement ascii_only (lit "i am i am")
                                        (lit "original") true)
     = JStr (lit "I am I am").
Proof. split; vm_compute; reflexivity. Qed.

(** C1 (as the code has it): when the LLM path is attempted and the call
    raises (constructing the model, generating, or reading the reply's
    text), the result is the decoded output of the Local Corrector for the
    same text and flags, with no error field; when a reply arrives and is
    not JSON, the result is the error result: the text unchanged, no
    improvements and an error. *)
Theorem llm_failure_recovery (U : UnicodeDB) (cfg : config) (g : genai)
    (text tone : str) (show : bool) :
  Forall valid text ->
  HAS_GEMINI_SDK cfg && key_configured cfg = true ->
  match ask_gemini U g (prompt_of text tone show) with
  | None =>
      enhance_text U cfg g text tone show = local_enhancement U text tone show
      /\ e_error (enhance_text U cfg g text tone show) = None
      /\ loads (apply_local_grammar_correction U text tone show)
         = Some (JObj [(lit "correctedText",
                        e_correctedText (enhance_text U cfg g text tone show));
                       (lit "improvements",
                        e_improvements (enhance_text U cfg g text tone show))])
  | Some reply =>
      match loads (strip U (clean_fences reply)) with
      | None =>
          enhance_text U cfg g text tone show = errored text JSONDecodeError
      | Some _ => True
      end
  end.
Proof.
  intros Ht Hon.
  destruct (ask_gemini U g (prompt_of text tone show)) as [reply|] eqn:E.
  - destruct (loads (strip U (clean_fences reply))) eqn:El; [exact I|].
    unfold enhance_text. now rewrite Hon, E, El.
  - assert (H : enhance_text U cfg g text tone show
                = local_enhancement U text tone show)
      by (apply enhance_text_local; [exact Ht|now right]).
    rewrite H. repeat split.
    exact (loads_dump_payload (local_payload_valid U tone show Ht)).
Qed.

Lemma llm_failure_recovery_witness :
  enhance_text ascii_only cfg_on g_down (lit "i am i am") (lit "casual") true
  = local_enhancement ascii_only (lit "i am i am") (lit "casual") true
  /\ e_error (enhance_text ascii_only cfg_on g_down (lit "i am i am")
                           (lit "casual") true) = None
  /\ loads (apply_local_grammar_correction ascii_only (lit "i am i am")
                                           (lit "casual") true)
     = Some (JObj [(lit "correctedText",
                    e_correctedText
                      (enhance_text ascii_only cfg_on g_down (lit "i am i am")
                                    (lit "casual") true));
                   (lit "improvements",
                    e_improvements
                      (enhance_text ascii_only cfg_on g_down (lit "i am i am")
                                    (lit "casual") true))]).
Proof.
  apply (@llm_failure_recovery ascii_only cfg_on g_down (lit "i am i am")
                              (lit "casual") true).
  - apply valid_forallb. reflexivity.
  - reflexivity.
Defined.

(** *** The corrected text *)

(** C2 (as stated) fails: a text of one space is not empty and comes back
    as the empty string; and with the LLM configured the corrected text is
    whatever the reply carries, here the empty string. *)
Lemma corrected_text_can_be_empty :
  enhance_text ascii_only cfg_off g_down (lit " ") (lit "original") true
  = {| e_correctedText := JStr []; e_improvements := JArr [];
       e_error := None |}
  /\ enhance_text ascii_only cfg_on
       (g_says (lit "{" ++ quoted "correctedText" ++ lit ": " ++ quoted ""
                ++ lit "}"))
       (lit "hello") (lit "original") true
     = {| e_correctedText := JStr []; e_improvements := JArr [];
          e_error := None |}.
Proof. split; vm_compute; reflexivity. Qed.

Lemma error_keeps_text (U : UnicodeDB) (cfg : config) (g : genai)
    (text tone : str) (show : bool) :
  match e_error (enhance_text U cfg g text tone show) with
  | Some _ => enhance_text U cfg g text tone show
              = {| e_correctedText := JStr text; e_improvements := JArr [];
                   e_error := e_error (enhance_text U cfg g text tone show) |}
  | None => True
  end.
Proof.
  unfold enhance_text.
  destruct (loads _) as [[| | | | |]|]; simpl; try reflexivity; exact I.
Qed.

(** C2 (as the code has it): for a text with a character that is not white
    space, when the result comes from the Local Corrector (the LLM is not
    configured, or calling it raised) the corrected text is a string that
    is not empty, and there is no error; and whenever [enhance_text]
    reports an error, the corrected text is the input text unchanged. *)
Theorem corrected_text_nonempty (U : UnicodeDB) (cfg : config) (g : genai)
    (text tone : str) (show : bool) :
  Forall valid text -> solid U text ->
  takes_local_path U cfg g text tone show ->
  (exists s, e_correctedText (enhance_text U cfg g text tone show) = JStr s
             /\ s <> [])
  /\ e_error (enhance_text U cfg g text tone show) = None
  /\ (forall cfg' g',
        match e_error (enhance_text U cfg' g' text tone show) with
        | Some _ => e_correctedText (enhance_text U cfg' g' text tone show)
                    = JStr text
        | None => True
        end).
Proof.
  intros Ht Hs Hl. rewrite (enhance_text_local Ht Hl). repeat split.
  - eexists. split; [reflexivity|]. cbn [joined_payload correctedText].
    intros Hnil. apply (proj1 (joined_nil_iff _)) in Hnil.
    exact (local_payload_solid tone show Hs Hnil).
  - intros cfg' g'. pose proof (error_keeps_text U cfg' g' text tone show) as H.
    destruct (e_error (enhance_text U cfg' g' text tone show)); [|exact I].
    now rewrite H.
Qed.

Lemma corrected_text_nonempty_witness :
  (exists s, e_correctedText
               (enhance_text ascii_only cfg_off g_down (lit "he are happy")
                             (lit "original") true) = JStr s
             /\ s <> [])
  /\ e_error (enhance_text ascii_only cfg_off g_down (lit "he are happy")
                           (lit "original") true) = None
  /\ (forall cfg' g',
        match e_error (enhance_text ascii_only cfg' g' (lit "he are happy")
                                    (lit "original") true) with
        | Some _ => e_correctedText
                      (enhance_text ascii_only cfg' g' (lit "he are happy")
                                    (lit "original") true)
                    = JStr (lit "he are happy")
        | None => True
        end).
Proof.
  apply (@corrected_text_nonempty ascii_only cfg_off g_down (lit "he are happy")
                                 (lit "original") true).
  - apply valid_forallb. reflexivity.
  - exists 104%N. split; [now left|reflexivity].
  - left. reflexivity.
Defined.

(** *** The length of the improvements list *)

(** a reply of the service that lists eleven improvements *)
Definition eleven : payload :=
  {| correctedText := lit "I"; improvements := repeat capital_i 11 |}.

(** C4 (as stated) fails for [enhance_text]: with the LLM configured, the
    improvements of the reply are passed on as they are, here eleven of
    them. *)
Lemma llm_improvements_not_truncated :
  e_improvements
    (enhance_text ascii_only cfg_on (g_says (dump_payload eleven))
                  (lit "i") (lit "original") true)
  = JArr (repeat (json_of_improvement capital_i) 11)
  /\ List.length (repeat (json_of_improvement capital_i) 11) = 11.
Proof. split; vm_compute; reflexivity. Qed.

Lemma enhance_text_silent (U : UnicodeDB) (cfg : config) (g : genai)
    (text tone : str) :
  e_improvements (enhance_text U cfg g text tone false) = JArr [].
Proof.
  unfold enhance_text.
  destruct (loads _) as [[| | | | |]|]; reflexivity.
Qed.

(** C4 (as the code has it): the Local Corrector never reports more than
    ten improvements, and none when the flag is false; [enhance_text]
    reports none when the flag is false, whatever path it took; and when
    its result comes from the Local Corrector (the LLM is not configured,
    or calling it raised) it reports a list of at most ten. *)
Theorem improvements_bounded (U : UnicodeDB) (cfg : config) (g : genai)
    (text tone : str) (show : bool) :
  List.length (improvements (local_payload U text tone show)) <= 10
  /\ improvements (local_payload U text tone false) = []
  /\ e_improvements (enhance_text U cfg g text tone false) = JArr []
  /\ (Forall valid text -> takes_local_path U cfg g text tone show ->
      exists l, e_improvements (enhance_text U cfg g text tone show) = JArr l
                /\ List.length l <= 10).
Proof.
  repeat split.
  - apply local_bounded.
  - apply local_silent.
  - apply enhance_text_silent.
  - intros Ht Hl. rewrite (enhance_text_local Ht Hl). eexists.
    split; [reflexivity|]. cbn [joined_payload improvements].
    rewrite !length_map. apply local_bounded.
Qed.

Lemma improvements_bounded_witness :
  exists l,
    e_improvements
      (enhance_text ascii_only cfg_on g_down
                    (lit "I recieve seperate occured events") (lit "academic")
                    true) = JArr l
    /\ List.length l <= 10.
Proof.
  apply (improvements_bounded ascii_only cfg_on g_down
           (lit "I recieve seperate occured events") (lit "academic") true).
  - apply valid_forallb. reflexivity.
  - right. reflexivity.
Defined.

(** * Further properties of the Local Corrector *)

Section LocalMore.

Variable U : UnicodeDB.

(** ** The flag only decides what is reported *)

Lemma rules_text_flag (s1 s2 : bool) (rules : list rule) :
  forall cs1 cs2 t,
    snd (fold_left (apply_rule U s1) rules (cs1, t))
    = snd (fold_left (apply_rule U s2) rules (cs2, t)).
Proof.
  induction rules as [|r rules IH]; intros cs1 cs2 t; simpl; [reflexivity|].
  apply IH.
Qed.

(** X1: the corrected text is the same with and without explanations. *)
Theorem corrected_text_ignores_flag (text tone : str) (s1 s2 : bool) :
  correctedText (local_payload U text tone s1)
  = correctedText (local_payload U text tone s2).
Proof.
  unfold local_payload, run_rules.
  pose proof (rules_text_flag s1 s2 grammar_rules [] [] text) as H.
  destruct (fold_left (apply_rule U s1) _ _) as [c1 t1].
  destruct (fold_left (apply_rule U s2) _ _) as [c2 t2].
  simpl in H. subst t2. reflexivity.
Qed.

(** ** The corrected text is trimmed *)

Lemma lstrip_head (l : str) :
  match lstrip U l with
  | d :: _ => Chr.is_space U d = false
  | [] => True
  end.
Proof.
  induction l as [|d l IH]; simpl; [exact I|].
  destruct (Chr.is_space U d) eqn:E; [exact IH|exact E].
Qed.

Lemma lstrip_suffix (l : str) : exists pre, l = pre ++ lstrip U l.
Proof.
  induction l as [|d l [pre IH]]; simpl; [now exists []|].
  destruct (Chr.is_space U d).
  - exists (d :: pre). simpl. now f_equal.
  - now exists [].
Qed.

(** [strip] keeps a stretch of the text: what it drops is in front of it
    and behind it. *)
Lemma strip_infix (s : str) : exists pre post, s = pre ++ strip U s ++ post.
Proof.
  unfold strip. destruct (lstrip_suffix s) as [pre Hpre].
  destruct (lstrip_suffix (rev (lstrip U s))) as [post Hpost].
  exists pre, (rev post). rewrite Hpre at 1. f_equal.
  rewrite <- rev_app_distr, <- Hpost. now rewrite rev_involutive.
Qed.

Lemma strip_ends (s : str) :
  match strip U s with
  | d :: _ => Chr.is_space U d = false
  | [] => True
  end
  /\ match rev (strip U s) with
     | d :: _ => Chr.is_space U d = false
     | [] => True
     end.
Proof.
  split.
  - unfold strip. destruct (lstrip_suffix (rev (lstrip U s))) as [post Hpost].
    pose proof (lstrip_head s) as Hh.
    apply (f_equal (@rev N)) in Hpost.
    rewrite rev_involutive, rev_app_distr in Hpost.
    destruct (rev (lstrip U (rev (lstrip U s)))) as [|d t]; [exact I|].
    rewrite Hpost in Hh. exact Hh.
  - unfold strip. rewrite rev_involutive. apply lstrip_head.
Qed.

(** X2: the corrected text neither starts nor ends with white space. *)
Theorem corrected_text_trimmed (text tone : str) (show : bool) :
  match correctedText (local_payload U text tone show) with
  | d :: _ => Chr.is_space U d = false
  | [] => True
  end
  /\ match rev (correctedText (local_payload U text tone show)) with
     | d :: _ => Chr.is_space U d = false
     | [] => True
     end.
Proof.
  unfold local_payload. destruct (run_rules _ _ _ _) as [cs t].
  cbn [correctedText]. apply strip_ends.
Qed.

End LocalMore.

(** ** The spacing rule leaves no two spaces side by side *)

Definition spacing_rule : rule :=
  {| pattern := seq [RChar (CLit 32); RPlus (CLit 32)];
     replacement := [TLit (lit " ")];
     rule_reason := lit "Spacing: remove extra spaces" |}.

(** the text after the spaces at its head *)
Fixpoint drop_spaces (t : str) : str :=
  match t with
  | d :: t' => if (d =? 32)%N then drop_spaces t' else t
  | [] => []
  end.

(** every run of spaces made one space; [after_space] tells that a space
    was just written *)
Fixpoint squeeze (after_space : bool) (s : str) : str :=
  match s with
  | [] => []
  | d :: t =>
      if (d =? 32)%N
      then if after_space then squeeze true t else 32%N :: squeeze true t
      else d :: squeeze false t
  end.

(** two spaces side by side somewhere in the text *)
Fixpoint double_space (s : str) : bool :=
  match s with
  | a :: t =>
      match t with
      | c :: _ => ((a =? 32)%N && (c =? 32)%N) || double_space t
      | [] => false
      end
  | [] => false
  end.

Section Spacing.

Variable U : UnicodeDB.

Local Open Scope N_scope.

Lemma ci_space (d : N) : Chr.ci_eq U 32 d = (d =? 32).
Proof.
  unfold Chr.ci_eq, Chr.is_ascii, Chr.ascii_lower, Chr.is_upper, Chr.between.
  change (Chr.is_letter 32) with false. cbn [andb].
  change (if (65 <=? 32) && (32 <=? 90) then 32 + 32 else 32) with 32.
  destruct (N.ltb_spec d 128) as [Hlt|Hge].
  - destruct (N.leb_spec 65 d); destruct (N.leb_spec d 90); cbn [andb];
      try reflexivity.
    destruct (N.eqb_spec (d + 32) 32); destruct (N.eqb_spec d 32);
      try reflexivity; lia.
  - destruct (N.eqb_spec d 32); [lia|reflexivity].
Qed.

Lemma drop_spaces_length (t : str) :
  (List.length (drop_spaces t) <= List.length t)%nat.
Proof.
  induction t as [|d t IH]; simpl; [lia|].
  destruct (d =? 32); simpl; lia.
Qed.

Lemma skipn_drop_spaces (t : str) :
  skipn (List.length t - List.length (drop_spaces t)) t = drop_spaces t.
Proof.
  induction t as [|d t IH]; [reflexivity|]. cbn [drop_spaces].
  destruct (d =? 32).
  - pose proof (drop_spaces_length t). cbn [List.length].
    replace (S (List.length t) - List.length (drop_spaces t))%nat
      with (S (List.length t - List.length (drop_spaces t))) by lia.
    cbn [skipn]. exact IH.
  - now rewrite Nat.sub_diag.
Qed.

Lemma plus_space (t : str) :
  map snd (firstn 1 (plus U (CLit 32) t))
  = match t with
    | d :: _ => if d =? 32 then [drop_spaces t] else []
    | [] => []
    end.
Proof.
  induction t as [|d t IH]; [reflexivity|].
  cbn [plus cmatch]. rewrite ci_space. cbn [drop_spaces].
  destruct (d =? 32); [|reflexivity].
  destruct (plus U (CLit 32) t) as [|q l].
  - simpl. destruct t as [|d2 t]; [reflexivity|].
    cbn [drop_spaces]. destruct (d2 =? 32); [discriminate|reflexivity].
  - simpl in *. destruct t as [|d2 t]; [discriminate|].
    destruct (d2 =? 32); [exact IH|discriminate].
Qed.

Lemma span_length (from to : str) :
  (List.length to <= List.length from)%nat ->
  List.length (span from to) = (List.length from - List.length to)%nat.
Proof. intros H. unfold span. rewrite length_firstn. lia. Qed.

(** Where the text has two spaces, the rule matches the whole run. *)
Lemma match_at_spacing (ma : bool) (prev : option N) (d d2 : N) (t : str) :
  (d =? 32) = true -> (d2 =? 32) = true ->
  exists m, match_at U (pattern spacing_rule) ma (prev, d :: d2 :: t) = Some m
            /\ List.length (m_text m)
               = S (List.length (d2 :: t) - List.length (drop_spaces (d2 :: t)))
            /\ m_groups m = [].
Proof.
  intros Hd Hd2. unfold match_at. cbn [pattern spacing_rule seq rmatch snd fst].
  cbn [cmatch]. rewrite ci_space, Hd. cbn [flat_map]. rewrite app_nil_r.
  pose proof (plus_space (d2 :: t)) as Hp. cbv beta iota in Hp.
  rewrite Hd2 in Hp.
  destruct (plus U (CLit 32) (d2 :: t)) as [|q l] eqn:Epl; [discriminate|].
  simpl in Hp. injection Hp as Hq.
  change (snd q = drop_spaces (d2 :: t)) in Hq.
  pose proof (drop_spaces_length (d2 :: t)) as Hlen.
  assert (Hl : List.length (span (d :: d2 :: t) (snd q))
               = S (List.length (d2 :: t)
                    - List.length (drop_spaces (d2 :: t)))).
  { rewrite Hq. change (d :: d2 :: t) with (d :: (d2 :: t)).
    clear Hq. revert Hlen. generalize (drop_spaces (d2 :: t)).
    generalize (d2 :: t). intros x y Hlen.
    rewrite span_length by (cbn [List.length]; lia).
    cbn [List.length]. lia. }
  unfold result_at. cbn [fst snd]. rewrite Epl. cbn [map find m_text fst snd].
  rewrite Hl. cbn [Nat.eqb negb]. rewrite orb_true_r.
  eexists. split; [reflexivity|]. cbn [m_text m_groups]. split; [exact Hl|].
  reflexivity.
Qed.

(** Elsewhere it does not match. *)
Lemma match_at_spacing_none (ma : bool) (prev : option N) (rest : str) :
  match rest with
  | d :: d2 :: _ => (d =? 32) && (d2 =? 32)
  | _ => false
  end = false ->
  match_at U (pattern spacing_rule) ma (prev, rest) = None.
Proof.
  intros H. unfold match_at. cbn [pattern spacing_rule seq rmatch snd fst].
  destruct rest as [|d t]; [reflexivity|].
  cbn [cmatch]. rewrite ci_space. destruct (d =? 32) eqn:Hd; [|reflexivity].
  cbn [flat_map]. rewrite app_nil_r.
  pose proof (plus_space t) as Hp.
  destruct t as [|d2 t]; [reflexivity|]. cbn [andb] in H. rewrite H in Hp.
  cbn [fst snd].
  destruct (plus U (CLit 32) (d2 :: t)); [reflexivity|discriminate].
Qed.

Lemma squeeze_true (t : str) : squeeze true t = squeeze false (drop_spaces t).
Proof.
  induction t as [|d t IH]; [reflexivity|]. cbn [squeeze drop_spaces].
  destruct (d =? 32) eqn:E; [exact IH|]. cbn [squeeze]. now rewrite E.
Qed.

(** The substitution of the spacing rule is [squeeze]. *)
Lemma scan_spacing (rest : str) :
  forall prev k,
    flat_map (fun sg => match sg with
                        | Hit m => expand (replacement spacing_rule) m
                        | Keep d => [d]
                        end)
             (scan U (pattern spacing_rule) prev rest k)
    = squeeze false (skipn k rest).
Proof.
  induction rest as [|d t IH]; intros prev k.
  - cbn [scan]. rewrite skipn_nil. case_match_at; [|reflexivity].
    pose proof (match_at_spacing_none false prev [] eq_refl) as Hn.
    pose proof (eq_trans (eq_sym E) Hn). discriminate.
  - destruct k as [|k]; [|cbn [scan skipn]; apply IH].
    cbn [scan skipn]. cbv zeta.
    destruct (match t with
              | d2 :: _ => (d =? 32) && (d2 =? 32)
              | [] => false
              end) eqn:Htwo.
    + destruct t as [|d2 t]; [discriminate|].
      apply andb_prop in Htwo. destruct Htwo as [Hd Hd2].
      destruct (match_at_spacing false prev d d2 t Hd Hd2) as [m' [Hm [Hl Hg]]].
      case_match_at; pose proof (eq_trans (eq_sym E) Hm) as Em;
        [|discriminate].
      injection Em as <-. rewrite Hl. cbn [Nat.eqb flat_map]. rewrite IH.
      replace (S (List.length (d2 :: t)
                  - List.length (drop_spaces (d2 :: t))) - 1)%nat
        with (List.length (d2 :: t)
              - List.length (drop_spaces (d2 :: t)))%nat by lia.
      rewrite skipn_drop_spaces.
      change (squeeze false (d :: d2 :: t))
        with (if d =? 32 then 32 :: squeeze true (d2 :: t)
              else d :: squeeze false (d2 :: t)).
      rewrite Hd, (squeeze_true (d2 :: t)). reflexivity.
    + case_match_at.
      { assert (Hn : match_at U (pattern spacing_rule) false (prev, d :: t)
                     = None)
          by (apply match_at_spacing_none; destruct t;
              [reflexivity|exact Htwo]).
        pose proof (eq_trans (eq_sym E) Hn). discriminate. }
      cbn [flat_map app]. rewrite IH. cbn [skipn squeeze].
      destruct (d =? 32) eqn:Hd; [|reflexivity].
      apply N.eqb_eq in Hd. subst d.
      rewrite squeeze_true. destruct t as [|d2 t]; [reflexivity|].
      cbn [andb N.eqb Pos.eqb] in Htwo. cbn [drop_spaces]. now rewrite Htwo.
Qed.

Lemma sub_spacing (s : str) :
  sub U (pattern spacing_rule) (replacement spacing_rule) s = squeeze false s.
Proof. unfold sub. now rewrite scan_spacing. Qed.

Lemma double_space_other (d : N) (l : str) :
  (d =? 32) = false -> double_space (d :: l) = double_space l.
Proof. intros H. destruct l; simpl; [reflexivity|]. now rewrite H. Qed.

Lemma double_space_cons2 (a c : N) (l : str) :
  double_space (a :: c :: l)
  = ((a =? 32) && (c =? 32)) || double_space (c :: l).
Proof. reflexivity. Qed.

Lemma squeeze_single (s : str) :
  double_space (squeeze false s) = false
  /\ double_space (32 :: squeeze true s) = false.
Proof.
  induction s as [|d t [IH1 IH2]]; [split; reflexivity|].
  cbn [squeeze]. destruct (d =? 32) eqn:Hd; split; try assumption.
  - rewrite double_space_other by exact Hd. exact IH1.
  - rewrite double_space_cons2, Hd, andb_false_r. cbn [orb].
    rewrite double_space_other by exact Hd. exact IH1.
Qed.

Lemma double_space_tail (pre l : str) :
  double_space (pre ++ l) = false -> double_space l = false.
Proof.
  induction pre as [|a pre IH]; [easy|]. intros H. apply IH.
  cbn [app double_space] in H. destruct (pre ++ l); [reflexivity|].
  now apply orb_false_elim in H.
Qed.

Lemma double_space_front (l post : str) :
  double_space (l ++ post) = false -> double_space l = false.
Proof.
  induction l as [|a l IH]; [easy|]. intros H.
  cbn [app double_space] in H. cbn [double_space].
  destruct l as [|c l]; [reflexivity|]. cbn [app] in *.
  apply orb_false_elim in H. destruct H as [H1 H2].
  rewrite H1. cbn [orb]. now apply IH.
Qed.

End Spacing.

(** X3: the corrected text never has two spaces side by side. *)
Theorem corrected_text_single_spaced (U : UnicodeDB) (text tone : str)
    (show : bool) :
  double_space (correctedText (local_payload U text tone show)) = false.
Proof.
  unfold local_payload, run_rules.
  change grammar_rules with (firstn 20 grammar_rules ++ [spacing_rule]).
  rewrite fold_left_app.
  destruct (fold_left (apply_rule U show) (firstn 20 grammar_rules) ([], text))
    as [cs t].
  cbn [fold_left apply_rule correctedText]. rewrite sub_spacing.
  destruct (strip_infix U (squeeze false t)) as [pre [post H]].
  pose proof (proj1 (squeeze_single t)) as Hs. rewrite H in Hs.
  apply double_space_tail in Hs. now apply double_space_front in Hs.
Qed.

(** ** What an improvement says *)

(** the least number of characters a match of the pattern takes *)
Fixpoint min_len (r : regex) : nat :=
  match r with
  | REps | RBound => 0
  | RChar _ | RPlus _ => 1
  | RSeq r1 r2 => min_len r1 + min_len r2
  | RAlt r1 r2 => Nat.min (min_len r1) (min_len r2)
  | RGroup _ r1 => min_len r1
  end.

Section Reported.

Variable U : UnicodeDB.

Definition took (n : nat) (p q : pos) : Prop :=
  n + List.length (snd q) <= List.length (snd p).

Lemma plus_took (c : cset) (rest : str) (prev : option N) :
  Forall (fun q => took 1 (prev, rest) q) (plus U c rest).
Proof.
  revert prev. induction rest as [|d t IH]; intros prev; simpl; [constructor|].
  destruct (cmatch U c d); [|constructor]. apply Forall_app. split.
  - eapply Forall_impl; [|apply (IH (Some d))].
    unfold took. simpl. intros q Hq. lia.
  - constructor; [|constructor]. unfold took. simpl. lia.
Qed.

Lemma rmatch_took (r : regex) :
  forall p g, Forall (fun qg => took (min_len r) p (fst qg)) (rmatch U r p g).
Proof.
  induction r as [|c|c| |r1 IH1 r2 IH2|r1 IH1 r2 IH2|n r1 IH1];
    intros p g; cbn [rmatch min_len].
  - constructor; [|constructor]. unfold took. simpl. lia.
  - destruct p as [prev rest]. cbn [snd]. destruct rest as [|d t]; [constructor|].
    destruct (cmatch U c d); [|constructor].
    constructor; [|constructor]. unfold took. simpl. lia.
  - apply Forall_map. destruct p as [prev rest]. apply plus_took.
  - destruct (boundary U p); [|constructor].
    constructor; [|constructor]. unfold took. simpl. lia.
  - apply Forall_flat_map. eapply Forall_impl; [|apply IH1].
    intros [q g'] H1. eapply Forall_impl; [|apply IH2].
    intros [q' g''] H2. unfold took in *. simpl in *. lia.
  - apply Forall_app. split; (eapply Forall_impl; [|apply IH1 || apply IH2]);
      intros qg H; unfold took in *; lia.
  - apply Forall_map. eapply Forall_impl; [|apply IH1]. intros qg H. exact H.
Qed.

Lemma match_at_min (r : regex) (ma : bool) (p : pos) (m : rmatch_result) :
  match_at U r ma p = Some m -> min_len r <= List.length (m_text m).
Proof.
  intros H. apply match_at_in in H. destruct H as [qg [Hin [-> _]]].
  pose proof (rmatch_took r p []) as Ht. rewrite Forall_forall in Ht.
  specialize (Ht qg Hin). unfold took in Ht. cbn [result_at m_text].
  rewrite span_length; lia.
Qed.

(** what holds of every match of a search holds of every match of a scan *)
Lemma scan_hits (Q : rmatch_result -> Prop) (r : regex) :
  (forall ma p m, match_at U r ma p = Some m -> Q m) ->
  forall rest prev skip,
    Forall (fun sg => match sg with Hit m => Q m | Keep _ => True end)
           (scan U r prev rest skip).
Proof.
  intros HQ. induction rest as [|d t IH]; intros prev skip; cbn [scan].
  - case_match_at; [|constructor]. constructor; [|constructor].
    eapply HQ; eassumption.
  - destruct skip as [|k]; [|apply IH]. cbv zeta. case_match_at.
    + assert (Hm : Q m) by (eapply HQ; eassumption).
      destruct (Nat.eqb (List.length (m_text m)) 0).
      * case_match_at.
        -- constructor; [exact Hm|]. constructor; [|apply IH].
           eapply HQ; eassumption.
        -- constructor; [exact Hm|]. constructor; [exact I|apply IH].
      * constructor; [exact Hm|apply IH].
    + constructor; [exact I|apply IH].
Qed.

Lemma finditer_min (r : regex) (s : str) :
  Forall (fun m => min_len r <= List.length (m_text m)) (finditer U r s).
Proof.
  unfold finditer. apply Forall_flat_map.
  eapply Forall_impl;
    [|apply (scan_hits (fun m => min_len r <= List.length (m_text m)) r
                       (match_at_min r))].
  intros [d|m] H; [constructor|]. constructor; [exact H|constructor].
Qed.

(** [c] is what the rule [r] reports of a match: a text that is not empty,
    what the rule makes of it, which is another text, and the rule's
    description. *)
Definition reported_by (r : rule) (c : improvement) : Prop :=
  original c <> []
  /\ fixed c = sub U (pattern r) (replacement r) (original c)
  /\ original c <> fixed c
  /\ reason c = rule_reason r.

Definition reported (rules : list rule) (c : improvement) : Prop :=
  exists r, In r rules /\ reported_by r c.

Lemma record_reported (rules : list rule) (r : rule) (show : bool)
    (cs : list improvement) (m : rmatch_result) :
  In r rules -> 1 <= List.length (m_text m) ->
  Forall (reported rules) cs ->
  Forall (reported rules) (record U r show cs m).
Proof.
  intros Hr Hm Hcs. unfold record.
  destruct (negb (Str.eqb _ _) && show) eqn:E; [|exact Hcs].
  destruct (existsb _ cs); [exact Hcs|].
  apply Forall_app. split; [exact Hcs|]. constructor; [|constructor].
  exists r. split; [exact Hr|]. apply andb_prop in E. destruct E as [E _].
  apply negb_true_iff in E. repeat split; cbn [original fixed reason].
  - intros Hnil. rewrite Hnil in Hm. simpl in Hm. lia.
  - intros Heq. apply Str.eqb_eq in Heq. congruence.
Qed.

Lemma records_reported (rules : list rule) (r : rule) (show : bool)
    (ms : list rmatch_result) :
  In r rules -> Forall (fun m => 1 <= List.length (m_text m)) ms ->
  forall cs, Forall (reported rules) cs ->
             Forall (reported rules) (fold_left (record U r show) ms cs).
Proof.
  intros Hr. induction ms as [|m ms IH]; simpl; intros Hms cs Hcs; [exact Hcs|].
  inversion Hms; subst. apply IH; [assumption|].
  now apply record_reported.
Qed.

Lemma rules_reported (rules : list rule) (show : bool) (todo : list rule) :
  incl todo rules ->
  forallb (fun r => Nat.leb 1 (min_len (pattern r))) todo = true ->
  forall st, Forall (reported rules) (fst st) ->
             Forall (reported rules)
                    (fst (fold_left (apply_rule U show) todo st)).
Proof.
  induction todo as [|r todo IH]; simpl; intros Hin Hmin [cs t] Hcs;
    [exact Hcs|].
  apply andb_prop in Hmin. destruct Hmin as [Hr Hmin].
  apply IH; [intros x Hx; apply Hin; now right|exact Hmin|].
  simpl. apply records_reported; [apply Hin; now left| |exact Hcs].
  assert (Hr' : 1 <= min_len (pattern r))
    by (destruct (min_len (pattern r)); [discriminate|lia]).
  eapply Forall_impl; [|apply finditer_min]. intros m Hm. cbv beta in Hm. lia.
Qed.

End Reported.


(** ** The Local Corrector invents no characters *)

(** the characters the replacements of the table can write *)
Definition template_chars (t : template) : str :=
  flat_map (fun i => match i with TLit s => s | TGroup _ => [] end) t.

Definition replacement_chars (rules : list rule) : str :=
  flat_map (fun r => template_chars (replacement r)) rules.

Section Kept.

Variable U : UnicodeDB.
Variable P : N -> Prop.

(** what the Local Corrector takes from the text: the original and the
    fixed text of an improvement *)
Definition improvement_within (c : improvement) : Prop :=
  Forall P (original c) /\ Forall P (fixed c).

Lemma record_kept (r : rule) (show : bool) (cs : list improvement)
    (m : rmatch_result) :
  good_template P (replacement r) -> good_match P m ->
  Forall improvement_within cs ->
  Forall improvement_within (record U r show cs m).
Proof.
  intros Hr [Hm _] Hcs. unfold record.
  destruct (negb _ && show); [|exact Hcs].
  destruct (existsb _ cs); [exact Hcs|].
  apply Forall_app. split; [exact Hcs|]. constructor; [|constructor].
  split; cbn [original fixed]; [exact Hm|]. now apply sub_good.
Qed.

Lemma records_kept (r : rule) (show : bool) (ms : list rmatch_result) :
  good_template P (replacement r) -> Forall (good_match P) ms ->
  forall cs, Forall improvement_within cs ->
             Forall improvement_within (fold_left (record U r show) ms cs).
Proof.
  intros Hr. induction ms as [|m ms IH]; simpl; intros Hms cs Hcs; [exact Hcs|].
  inversion Hms; subst. apply IH; [assumption|]. now apply record_kept.
Qed.

Lemma rules_kept (show : bool) (rules : list rule) :
  Forall (fun r => good_template P (replacement r)) rules ->
  forall st, Forall improvement_within (fst st) /\ Forall P (snd st) ->
             Forall improvement_within
                    (fst (fold_left (apply_rule U show) rules st))
             /\ Forall P (snd (fold_left (apply_rule U show) rules st)).
Proof.
  induction rules as [|r rules IH]; simpl; intros Hrs [cs t] Hst; [exact Hst|].
  inversion Hrs as [|? ? Hr Hrs']; subst. destruct Hst as [Hcs Ht].
  apply IH; [exact Hrs'|]. simpl in *. split.
  - apply records_kept; [exact Hr| |exact Hcs]. now apply finditer_good.
  - now apply sub_good.
Qed.

Lemma strip_kept (s : str) : Forall P s -> Forall P (strip U s).
Proof.
  intros H. destruct (strip_infix U s) as [pre [post Hs]].
  rewrite Hs in H. apply Forall_app in H. destruct H as [_ H].
  now apply Forall_app in H.
Qed.

Lemma local_payload_kept (text tone : str) (show : bool) :
  Forall (fun r => good_template P (replacement r)) grammar_rules ->
  Forall P text ->
  Forall P (correctedText (local_payload U text tone show))
  /\ Forall improvement_within (improvements (local_payload U text tone show)).
Proof.
  intros Hrules Ht. unfold local_payload, run_rules.
  pose proof (rules_kept show Hrules ([], text) (conj (Forall_nil _) Ht))
    as [Hcs Hc].
  destruct (fold_left _ _ _) as [cs t]. cbn [fst snd] in *.
  cbn [correctedText improvements]. split.
  - now apply strip_kept.
  - now apply Forall_firstn.
Qed.

End Kept.

Lemma replacement_chars_good (text : str) (rules : list rule) :
  Forall (fun r => good_template
                     (fun c => In c text \/ In c (replacement_chars rules))
                     (replacement r)) rules.
Proof.
  apply Forall_forall. intros r Hr. apply Forall_forall. intros [s|n] Hi;
    [|exact I].
  apply Forall_forall. intros c Hc. right. unfold replacement_chars.
  apply in_flat_map. exists r. split; [exact Hr|].
  unfold template_chars. apply in_flat_map. exists (TLit s). now split.
Qed.

(** X5: every character of the corrected text, and of the original and the
    fixed text of every improvement, is a character of the input text or
    one that a replacement of the rule table writes (a letter, the space or
    the apostrophe). *)
Theorem nothing_invented (U : UnicodeDB) (text tone : str) (show : bool) :
  let from_input c := In c text \/ In c (replacement_chars grammar_rules) in
  Forall from_input (correctedText (local_payload U text tone show))
  /\ Forall (fun i => Forall from_input (original i)
                      /\ Forall from_input (fixed i))
            (improvements (local_payload U text tone show))
  /\ forallb (fun c => Chr.is_letter c || (c =? 32)%N || (c =? 39)%N)
             (replacement_chars grammar_rules) = true.
Proof.
  intros from_input. pose proof (@local_payload_kept U from_input text tone show
                                   (replacement_chars_good text grammar_rules))
    as H.
  destruct H as [H1 H2]; [apply Forall_forall; intros c Hc; now left|].
  split; [exact H1|]. split; [exact H2|]. vm_compute. reflexivity.
Qed.

(** * Further properties of the JSON text *)

(** a printable ASCII character *)
Definition printable (c : N) : bool := ((32 <=? c) && (c <=? 126))%N.

Section Ascii.

Local Open Scope N_scope.

Lemma hex_digit_printable (n : N) : n < 16 -> printable (hex_digit n) = true.
Proof.
  intros H. unfold printable, hex_digit.
  destruct (N.ltb_spec n 10); apply andb_true_intro; split; apply N.leb_le; lia.
Qed.

Lemma hex4_printable (c : N) : c < 65536 -> forallb printable (hex4 c) = true.
Proof.
  intros H. unfold hex4. cbn [forallb].
  rewrite !hex_digit_printable by lia. reflexivity.
Qed.

Lemma escape_char_printable (c : N) :
  valid c -> forallb printable (escape_char c) = true.
Proof.
  unfold valid, escape_char. intros Hc. apply N.ltb_lt in Hc.
  repeat match goal with
         | |- context [if ?x =? ?k then _ else _] =>
             destruct (N.eqb_spec x k); [reflexivity|]
         end.
  destruct (N.leb_spec 32 c) as [H1|H1]; destruct (N.leb_spec c 126) as [H2|H2];
    cbn [andb].
  - cbn [forallb]. unfold printable. apply N.leb_le in H1, H2.
    now rewrite H1, H2.
  - destruct (N.ltb_spec c 65536); [now apply hex4_printable|].
    rewrite forallb_app, !hex4_printable by lia. reflexivity.
  - destruct (N.ltb_spec c 65536); [now apply hex4_printable|].
    rewrite forallb_app, !hex4_printable by lia. reflexivity.
  - lia.
Qed.

Lemma dump_str_printable (s : str) :
  Forall valid s -> forallb printable (dump_str s) = true.
Proof.
  intros Hs. unfold dump_str. cbn [forallb]. rewrite forallb_app.
  cbn [forallb]. change (printable dq) with true. cbn [andb].
  rewrite andb_true_r. induction Hs as [|c s Hc Hs IH]; [reflexivity|].
  cbn [flat_map]. now rewrite forallb_app, escape_char_printable, IH.
Qed.

Lemma commas_printable (items : list str) :
  Forall (fun x => forallb printable x = true) items ->
  forallb printable (commas items) = true.
Proof.
  induction items as [|x [|y items] IH]; intros H; [reflexivity| |].
  - inversion H; subst. assumption.
  - inversion H as [|? ? Hx Hrest]; subst. rewrite commas_cons2.
    rewrite forallb_app, Hx. cbn [forallb andb].
    change (printable 44) with true. change (printable 32) with true.
    cbn [andb]. now apply IH.
Qed.

Lemma dump_obj_printable (members : list (str * str)) :
  Forall (fun kv => Forall valid (fst kv)
                    /\ forallb printable (snd kv) = true) members ->
  forallb printable (dump_obj members) = true.
Proof.
  intros H. unfold dump_obj. change (lit "{") with [123].
  change (lit "}") with [125]. rewrite !forallb_app. cbn [forallb].
  change (printable 123) with true. change (printable 125) with true.
  cbn [andb]. rewrite andb_true_r. apply commas_printable.
  apply Forall_map. eapply Forall_impl; [|exact H].
  intros [k v] [Hk Hv]. unfold dump_member. cbn [fst snd] in *.
  change (lit ": ") with [58; 32].
  rewrite !forallb_app, dump_str_printable, Hv by exact Hk. reflexivity.
Qed.

Lemma dump_arr_printable (items : list str) :
  Forall (fun x => forallb printable x = true) items ->
  forallb printable (dump_arr items) = true.
Proof.
  intros H. unfold dump_arr. change (lit "[") with [91].
  change (lit "]") with [93]. rewrite !forallb_app. cbn [forallb].
  change (printable 91) with true. change (printable 93) with true.
  cbn [andb]. rewrite andb_true_r. now apply commas_printable.
Qed.

Lemma dump_payload_printable (p : payload) :
  payload_valid p -> forallb printable (dump_payload p) = true.
Proof.
  intros [Hc Hi]. unfold dump_payload. apply dump_obj_printable.
  constructor; [|constructor; [|constructor]]; split; cbn [fst snd].
  - apply valid_forallb. reflexivity.
  - now apply dump_str_printable.
  - apply valid_forallb. reflexivity.
  - apply dump_arr_printable, Forall_map.
    eapply Forall_impl; [|exact Hi]. intros i [Ho [Hf Hr]].
    unfold dump_improvement. apply dump_obj_printable.
    repeat constructor; cbn [fst snd];
      try (apply valid_forallb; reflexivity);
      now apply dump_str_printable.
Qed.

End Ascii.

(** X6: the JSON text the Local Corrector returns is printable ASCII: every
    other character of the text is written as an escape. *)
Theorem local_output_printable (U : UnicodeDB) (text tone : str) (show : bool) :
  Forall valid text ->
  forallb printable (apply_local_grammar_correction U text tone show) = true.
Proof.
  intros Ht. unfold apply_local_grammar_correction.
  apply dump_payload_printable. now apply local_payload_valid.
Qed.

Lemma local_output_printable_witness :
  forallb printable
    (apply_local_grammar_correction ascii_only
       (lit "i saw a café — it was naïve 😀") (lit "original") true) = true.
Proof.
  apply (@local_output_printable ascii_only
           (lit "i saw a café — it was naïve 😀") (lit "original") true).
  apply valid_forallb. reflexivity.
Defined.

(** X7: the text the Local Corrector returns is always JSON: [json.loads]
    reads it as an object with the corrected text and the list of
    improvements, each an object of three strings; an escaped surrogate
    pair is read as one code point. *)
Theorem local_output_is_json (U : UnicodeDB) (text tone : str) (show : bool) :
  Forall valid text ->
  loads (apply_local_grammar_correction U text tone show)
  = Some (json_of_payload (joined_payload (local_payload U text tone show))).
Proof.
  intros Ht. apply loads_dump_payload. now apply local_payload_valid.
Qed.

Lemma local_output_is_json_witness :
  loads (apply_local_grammar_correction ascii_only
           (lit "he are happy — naïve 😀") (lit "original") true)
  = Some (json_of_payload
            (joined_payload
               (local_payload ascii_only (lit "he are happy — naïve 😀")
                              (lit "original") true))).
Proof.
  apply (@local_output_is_json ascii_only (lit "he are happy — naïve 😀")
           (lit "original") true).
  apply valid_forallb. reflexivity.
Defined.

(** * Further properties of the orchestrator *)

Section Plain.

Variable U : UnicodeDB.

(** no high surrogate: nothing for the reader of escapes to join *)
Definition plain (c : N) : Prop := is_high c = false.

Lemma joined_plain (s : str) : Forall plain s -> joined s = s.
Proof.
  induction 1 as [|c s Hc Hs IH]; [reflexivity|].
  rewrite joined_other by exact Hc. now rewrite IH.
Qed.

Lemma templates_plain :
  Forall (fun r => good_template plain (replacement r)) grammar_rules.
Proof.
  assert (H : forallb (fun c => negb (is_high c))
                      (replacement_chars grammar_rules) = true)
    by (vm_compute; reflexivity).
  rewrite forallb_forall in H.
  apply Forall_forall. intros r Hr. apply Forall_forall. intros [s|n] Hi;
    [|exact I].
  apply Forall_forall. intros c Hc. apply negb_true_iff, H.
  unfold replacement_chars. apply in_flat_map. exists r. split; [exact Hr|].
  unfold template_chars. apply in_flat_map. exists (TLit s). now split.
Qed.

Lemma reasons_plain (r : rule) :
  In r grammar_rules -> Forall plain (rule_reason r).
Proof.
  assert (H : forallb (fun r => forallb (fun c => negb (is_high c))
                                        (rule_reason r))
                      grammar_rules = true) by (vm_compute; reflexivity).
  rewrite forallb_forall in H. intros Hr. specialize (H r Hr).
  rewrite forallb_forall in H. apply Forall_forall. intros c Hc.
  now apply negb_true_iff, H.
Qed.

Lemma local_payload_plain (text tone : str) (show : bool) :
  Forall plain text ->
  joined_payload (local_payload U text tone show)
  = local_payload U text tone show.
Proof.
  intros Ht.
  destruct (@local_payload_kept U plain text tone show templates_plain Ht)
    as [Hc Hi].
  assert (Hr : Forall (reported U grammar_rules)
                      (improvements (local_payload U text tone show))).
  { unfold local_payload, run_rules.
    assert (Hmin : forallb (fun r => Nat.leb 1 (min_len (pattern r)))
                           grammar_rules = true) by (vm_compute; reflexivity).
    pose proof (@rules_reported U grammar_rules show grammar_rules
                  (incl_refl grammar_rules) Hmin ([], text) (Forall_nil _))
      as H.
    destruct (fold_left _ _ _) as [cs t]. cbn [fst improvements] in *.
    now apply Forall_firstn. }
  destruct (local_payload U text tone show) as [c imps].
  unfold joined_payload. cbn [correctedText improvements] in *.
  rewrite joined_plain by exact Hc. f_equal.
  rewrite <- (map_id imps) at 2. apply map_ext_in. intros i Hin.
  rewrite Forall_forall in Hi, Hr.
  destruct (Hi i Hin) as [Ho Hf]. destruct (Hr i Hin) as [r [Hrin [_ [_ [_ Hre]]]]].
  destruct i as [o f re]. unfold joined_improvement.
  cbn [original fixed reason] in *. subst re.
  now rewrite !joined_plain by (assumption || now apply reasons_plain).
Qed.

End Plain.

(** X8: when the LLM is not configured (the SDK is missing, or the health
    check reports no credential), [enhance_text] never asks the service:
    whatever the service would do and whatever the tone, the result is the
    decoded output of the Local Corrector, without an error. *)
Theorem unconfigured_is_local (U : UnicodeDB) (cfg : config) (g : genai)
    (text tone now : str) (show : bool) :
  Forall valid text ->
  HAS_GEMINI_SDK cfg = false \/ api_configured (health_check cfg now) = false ->
  enhance_text U cfg g text tone show
  = local_enhancement U text (lit "original") show
  /\ e_error (enhance_text U cfg g text tone show) = None.
Proof.
  intros Ht Hoff.
  assert (Hl : takes_local_path U cfg g text tone show).
  { left. destruct Hoff as [H|H]; [now rewrite H|].
    cbn [health_check api_configured] in H. rewrite H. apply andb_false_r. }
  rewrite (enhance_text_local Ht Hl). split; reflexivity.
Qed.

Lemma unconfigured_is_local_witness :
  enhance_text ascii_only cfg_off (g_says (lit "{}")) (lit "i am i am")
               (lit "casual") true
  = local_enhancement ascii_only (lit "i am i am") (lit "original") true
  /\ e_error (enhance_text ascii_only cfg_off (g_says (lit "{}"))
                           (lit "i am i am") (lit "casual") true) = None.
Proof.
  apply (@unconfigured_is_local ascii_only cfg_off (g_says (lit "{}"))
           (lit "i am i am") (lit "casual") [] true).
  - apply valid_forallb. reflexivity.
  - left. reflexivity.
Defined.

(** X9: for a text of code points without high surrogates, a result that
    comes from the Local Corrector carries exactly its corrected text and
    its improvements: writing them as JSON and reading them back changes
    nothing. *)
Theorem local_result_exact (U : UnicodeDB) (cfg : config) (g : genai)
    (text tone : str) (show : bool) :
  Forall valid text -> Forall plain text ->
  takes_local_path U cfg g text tone show ->
  enhance_text U cfg g text tone show
  = {| e_correctedText :=
         JStr (correctedText (local_payload U text tone show));
       e_improvements :=
         JArr (map json_of_improvement
                   (improvements (local_payload U text tone show)));
       e_error := None |}.
Proof.
  intros Ht Hp Hl. rewrite (enhance_text_local Ht Hl).
  unfold local_enhancement. cbv zeta. now rewrite local_payload_plain.
Qed.

Lemma local_result_exact_witness :
  enhance_text ascii_only cfg_on g_down (lit "its a naïve café") (lit "casual")
               true
  = {| e_correctedText :=
         JStr (correctedText
                 (local_payload ascii_only (lit "its a naïve café")
                                (lit "casual") true));
       e_improvements :=
         JArr (map json_of_improvement
                   (improvements
                      (local_payload ascii_only (lit "its a naïve café")
                                     (lit "casual") true)));
       e_error := None |}.
Proof.
  apply (@local_result_exact ascii_only cfg_on g_down (lit "its a naïve café")
           (lit "casual") true).
  - apply valid_forallb. reflexivity.
  - apply Forall_forall. intros c Hc.
    assert (H : forallb (fun c => negb (is_high c)) (lit "its a naïve café")
                = true) by reflexivity.
    rewrite forallb_forall in H. now apply negb_true_iff, H.
  - right. reflexivity.
Defined.

(** ** The tone *)

Lemma tone_get_absent (tones : list (str * str)) (tone default : str) :
  ~ In tone (map fst tones) -> tone_get tones tone default = default.
Proof.
  induction tones as [|[k v] tones IH]; simpl; intros H; [reflexivity|].
  destruct (Str.eqb k tone) eqn:E.
  - apply Str.eqb_eq in E. tauto.
  - apply IH. tauto.
Qed.

Lemma tone_get_original (default : str) :
  tone_get WRITING_TONES (lit "original") default
  = lit "Maintain the original tone and style".
Proof. vm_compute. reflexivity. Qed.

(** X10: a tone that is not one of the four names is handled as the tone
    'original': the prompt, and so the whole result, is the same. *)
Theorem unknown_tone_is_original (U : UnicodeDB) (cfg : config) (g : genai)
    (text tone : str) (show : bool) :
  ~ In tone (map fst WRITING_TONES) ->
  prompt_of text tone show = prompt_of text (lit "original") show
  /\ enhance_text U cfg g text tone show
     = enhance_text U cfg g text (lit "original") show.
Proof.
  intros H.
  assert (Hp : prompt_of text tone show = prompt_of text (lit "original") show).
  { unfold prompt_of. rewrite (@tone_get_absent _ _ _ H), tone_get_original.
    reflexivity. }
  split; [exact Hp|]. unfold enhance_text. rewrite Hp.
  change (apply_local_grammar_correction U text tone show)
    with (apply_local_grammar_correction U text (lit "original") show).
  reflexivity.
Qed.

Lemma unknown_tone_is_original_witness :
  prompt_of (lit "he are happy") (lit "poetic") true
  = prompt_of (lit "he are happy") (lit "original") true
  /\ enhance_text ascii_only cfg_on (g_says (lit "{}")) (lit "he are happy")
                  (lit "poetic") true
     = enhance_text ascii_only cfg_on (g_says (lit "{}")) (lit "he are happy")
                    (lit "original") true.
Proof.
  apply (@unknown_tone_is_original ascii_only cfg_on (g_says (lit "{}"))
           (lit "he are happy") (lit "poetic") true).
  simpl. intros [H|[H|[H|[H|[]]]]]; discriminate.
Defined.

(** ** Code fences around a reply *)

Section Fences.

Variable U : UnicodeDB.

Lemma after_app (p rest : str) : after p (p ++ rest) = Some rest.
Proof.
  induction p as [|a p IH]; [reflexivity|]. cbn [app after].
  now rewrite N.eqb_refl.
Qed.

Lemma endswith_app (p x : str) : endswith p (x ++ p) = true.
Proof.
  unfold endswith, startswith. now rewrite rev_app_distr, after_app.
Qed.

Lemma firstn_app_end (p x : str) :
  firstn (List.length (x ++ p) - List.length p) (x ++ p) = x.
Proof.
  rewrite length_app.
  replace (List.length x + List.length p - List.length p)
    with (List.length x + 0) by lia.
  rewrite firstn_app_2. simpl. apply app_nil_r.
Qed.

(** a text between two characters that are not white space is stripped
    already *)
Lemma strip_solid_ends (a c : N) (x : str) :
  Chr.is_space U a = false -> Chr.is_space U c = false ->
  strip U (a :: x ++ [c]) = a :: x ++ [c].
Proof.
  intros Ha Hc. unfold strip. cbn [lstrip]. rewrite Ha.
  change (rev (a :: x ++ [c])) with (rev (x ++ [c]) ++ [a]).
  rewrite rev_app_distr. cbn [rev app lstrip]. rewrite Hc.
  change (rev (c :: rev x ++ [a])) with (rev (rev x ++ [a]) ++ [c]).
  now rewrite rev_app_distr, rev_involutive.
Qed.

(** a line feed on each side is stripped *)
Lemma strip_lines (a c : N) (x : str) :
  Chr.is_space U a = false -> Chr.is_space U c = false ->
  strip U (10%N :: (a :: x ++ [c]) ++ [10%N]) = a :: x ++ [c].
Proof.
  intros Ha Hc. unfold strip. cbn [lstrip app].
  change (Chr.is_space U 10) with true. cbv iota. rewrite Ha.
  change (rev (a :: (x ++ [c]) ++ [10%N]))
    with (rev ((x ++ [c]) ++ [10%N]) ++ [a]).
  rewrite !rev_app_distr. cbn [rev app lstrip].
  change (Chr.is_space U 10) with true. cbv iota. rewrite Hc.
  change (rev (c :: rev x ++ [a])) with (rev (rev x ++ [a]) ++ [c]).
  now rewrite rev_app_distr, rev_involutive.
Qed.

Definition braces (z : str) : str := 123%N :: z ++ [125%N].

(** the reply in a fence with the tag json, and in a bare fence *)
Definition fenced_json (doc : str) : str :=
  lit "```json" ++ 10%N :: doc ++ 10%N :: fence.

Definition fenced (doc : str) : str :=
  fence ++ 10%N :: doc ++ 10%N :: fence.

Lemma fence_end (doc : str) :
  10%N :: doc ++ 10%N :: fence = (10%N :: doc ++ [10%N]) ++ fence.
Proof. cbn [app]. now rewrite <- app_assoc. Qed.

Lemma clean_fenced_json (doc : str) :
  clean_fences (fenced_json doc) = 10%N :: doc ++ [10%N].
Proof.
  unfold fenced_json. rewrite fence_end. unfold clean_fences.
  change (startswith (lit "```json")
            (lit "```json" ++ (10%N :: doc ++ [10%N]) ++ fence)) with true.
  cbv iota.
  change (skipn 7 (lit "```json" ++ (10%N :: doc ++ [10%N]) ++ fence))
    with ((10%N :: doc ++ [10%N]) ++ fence).
  change (startswith fence ((10%N :: doc ++ [10%N]) ++ fence)) with false.
  cbv iota. rewrite endswith_app. change 3 with (List.length fence).
  apply firstn_app_end.
Qed.

Lemma clean_fenced (doc : str) :
  clean_fences (fenced doc) = 10%N :: doc ++ [10%N].
Proof.
  unfold fenced. rewrite fence_end. unfold clean_fences.
  change (startswith (lit "```json")
            (fence ++ (10%N :: doc ++ [10%N]) ++ fence)) with false.
  cbv iota.
  change (startswith fence (fence ++ (10%N :: doc ++ [10%N]) ++ fence))
    with true.
  cbv iota.
  change (skipn 3 (fence ++ (10%N :: doc ++ [10%N]) ++ fence))
    with ((10%N :: doc ++ [10%N]) ++ fence).
  rewrite endswith_app. change 3 with (List.length fence).
  apply firstn_app_end.
Qed.

(** the fences do not start or end with white space *)
Lemma strip_fenced_json (doc : str) :
  strip U (fenced_json doc) = fenced_json doc.
Proof.
  unfold fenced_json.
  change (lit "```json" ++ 10%N :: doc ++ 10%N :: fence)
    with (96%N :: lit "``json" ++ 10%N :: doc ++ 10%N :: fence).
  replace (lit "``json" ++ 10%N :: doc ++ 10%N :: fence)
    with ((lit "``json" ++ 10%N :: doc ++ 10%N :: lit "``") ++ [96%N]).
  - now apply strip_solid_ends.
  - rewrite <- !app_assoc. cbn [app]. rewrite <- app_assoc. reflexivity.
Qed.

Lemma strip_fenced (doc : str) : strip U (fenced doc) = fenced doc.
Proof.
  unfold fenced.
  change (fence ++ 10%N :: doc ++ 10%N :: fence)
    with (96%N :: lit "``" ++ 10%N :: doc ++ 10%N :: fence).
  replace (lit "``" ++ 10%N :: doc ++ 10%N :: fence)
    with ((lit "``" ++ 10%N :: doc ++ 10%N :: lit "``") ++ [96%N]).
  - now apply strip_solid_ends.
  - rewrite <- !app_assoc. cbn [app]. rewrite <- app_assoc. reflexivity.
Qed.

(** what [json.loads] is given, for a reply in braces with or without a
    fence *)
Lemma reply_text_braces (z : str) :
  strip U (clean_fences (strip U (braces z))) = braces z.
Proof.
  unfold braces.
  rewrite (@strip_solid_ends 123%N 125%N z) by reflexivity.
  rewrite clean_fences_braces. now apply strip_solid_ends.
Qed.

Lemma reply_text_fenced_json (z : str) :
  strip U (clean_fences (strip U (fenced_json (braces z)))) = braces z.
Proof.
  rewrite strip_fenced_json, clean_fenced_json. unfold braces.
  now apply strip_lines.
Qed.

Lemma reply_text_fenced (z : str) :
  strip U (clean_fences (strip U (fenced (braces z)))) = braces z.
Proof.
  rewrite strip_fenced, clean_fenced. unfold braces. now apply strip_lines.
Qed.

Lemma ask_says (reply prompt : str) :
  ask_gemini U (g_says reply) prompt = Some (strip U reply).
Proof. reflexivity. Qed.

End Fences.

(** X11: a reply that is a JSON object wrapped in a fence, with the tag
    json or without it, gives the same result as the bare object. *)
Theorem fenced_reply_same (U : UnicodeDB) (cfg : config) (text tone z : str)
    (show : bool) :
  enhance_text U cfg (g_says (fenced_json (braces z))) text tone show
  = enhance_text U cfg (g_says (braces z)) text tone show
  /\ enhance_text U cfg (g_says (fenced (braces z))) text tone show
     = enhance_text U cfg (g_says (braces z)) text tone show.
Proof.
  unfold enhance_text. rewrite !ask_says.
  destruct (HAS_GEMINI_SDK cfg && key_configured cfg); [|split; reflexivity].
  now rewrite reply_text_braces, reply_text_fenced_json, reply_text_fenced.
Qed.

(** ** What is made of a reply *)

Definition is_object (j : json) : bool :=
  match j with
  | JObj _ => true
  | _ => false
  end.

Definition has_key (key : str) (members : list (str * json)) : bool :=
  existsb (fun kv => Str.eqb (fst kv) key) members.

Lemma get_absent (key : str) (members : list (str * json)) (default : json) :
  has_key key members = false -> get key members default = default.
Proof.
  induction members as [|[k v] members IH]; [reflexivity|].
  cbn [has_key existsb get fst]. intros H. apply orb_false_elim in H.
  destruct H as [Hk Hm]. rewrite Hk. cbn [andb]. now apply IH.
Qed.

(** X12: when the LLM answers with JSON that is not an object (a list, a
    string, a number), [enhance_text] returns the error result: the text
    unchanged, no improvements, and an error. *)
Theorem reply_not_an_object (U : UnicodeDB) (cfg : config) (g : genai)
    (text tone reply : str) (show : bool) (j : json) :
  HAS_GEMINI_SDK cfg && key_configured cfg = true ->
  ask_gemini U g (prompt_of text tone show) = Some reply ->
  loads (strip U (clean_fences reply)) = Some j ->
  is_object j = false ->
  enhance_text U cfg g text tone show
  = {| e_correctedText := JStr text; e_improvements := JArr [];
       e_error := Some AttributeError |}.
Proof.
  intros Hon Hask Hj Hobj. unfold enhance_text. rewrite Hon, Hask, Hj.
  destruct j; try reflexivity. discriminate.
Qed.

Lemma reply_not_an_object_witness :
  enhance_text ascii_only cfg_on (g_says (lit "[1, 2]")) (lit "he are happy")
               (lit "original") true
  = {| e_correctedText := JStr (lit "he are happy"); e_improvements := JArr [];
       e_error := Some AttributeError |}.
Proof.
  apply (@reply_not_an_object ascii_only cfg_on (g_says (lit "[1, 2]"))
           (lit "he are happy") (lit "original") (lit "[1, 2]") true
           (JArr [JNum (lit "1"); JNum (lit "2")]));
    reflexivity.
Defined.

(** X13: when the LLM answers with an object that has no correctedText,
    the result carries the input text as the corrected text, and no error;
    with no improvements member the list is empty. *)
Theorem reply_defaults (U : UnicodeDB) (cfg : config) (g : genai)
    (text tone reply : str) (show : bool) (members : list (str * json)) :
  HAS_GEMINI_SDK cfg && key_configured cfg = true ->
  ask_gemini U g (prompt_of text tone show) = Some reply ->
  loads (strip U (clean_fences reply)) = Some (JObj members) ->
  e_error (enhance_text U cfg g text tone show) = None
  /\ (if has_key (lit "correctedText") members then True
      else e_correctedText (enhance_text U cfg g text tone show) = JStr text)
  /\ (if has_key (lit "improvements") members then True
      else e_improvements (enhance_text U cfg g text tone show) = JArr []).
Proof.
  intros Hon Hask Hj. unfold enhance_text. rewrite Hon, Hask, Hj.
  cbn [e_error e_correctedText e_improvements]. split; [reflexivity|]. split.
  - destruct (has_key (lit "correctedText") members) eqn:E; [exact I|].
    now apply get_absent.
  - destruct (has_key (lit "improvements") members) eqn:E; [exact I|].
    destruct show; [now apply get_absent|reflexivity].
Qed.

Lemma reply_defaults_witness :
  e_error (enhance_text ascii_only cfg_on (g_says (lit "{}"))
                        (lit "he are happy") (lit "original") true) = None
  /\ e_correctedText (enhance_text ascii_only cfg_on (g_says (lit "{}"))
                                   (lit "he are happy") (lit "original") true)
     = JStr (lit "he are happy")
  /\ e_improvements (enhance_text ascii_only cfg_on (g_says (lit "{}"))
                                  (lit "he are happy") (lit "original") true)
     = JArr [].
Proof.
  apply (@reply_defaults ascii_only cfg_on (g_says (lit "{}"))
           (lit "he are happy") (lit "original") (lit "{}") true []);
    reflexivity.
Defined.

(** * Further properties of the request handler *)

(** X14: a request whose text has a character that is not white space is
    answered 200 with the decoded output of the Local Corrector whenever
    the result comes from the Local Corrector (the LLM is not configured,
    or calling it raised), after exactly one call of [enhance_text]. *)
Theorem api_enhance_local (U : UnicodeDB) (cfg : config) (g : genai)
    (data : request) (text : str) :
  let tone := or_default (r_tone data) (lit "original") in
  let show := or_default (r_showExplanations data) true in
  r_text data = Some text ->
  Forall valid text -> whitespace_only U text = false ->
  takes_local_path U cfg g text tone show ->
  api_enhance U cfg g data
  = ({| status := 200;
        payload_of := Result (local_enhancement U text tone show) |},
     [{| c_text := text; c_tone := tone; c_show := show |}]).
Proof.
  intros tone show Htext Ht Hw Hl. unfold api_enhance. rewrite Htext.
  cbn [or_default]. rewrite truthy_strip, Hw.
  assert (Htr : truthy text = true)
    by (destruct text; [discriminate|reflexivity]).
  rewrite Htr. cbn [negb orb]. fold tone. fold show.
  rewrite (enhance_text_local Ht Hl). reflexivity.
Qed.

Lemma api_enhance_local_witness :
  api_enhance ascii_only cfg_off g_down
    {| r_text := Some (lit "  he are happy "); r_tone := None;
       r_showExplanations := Some false |}
  = ({| status := 200;
        payload_of :=
          Result (local_enhancement ascii_only (lit "  he are happy ")
                                    (lit "original") false) |},
     [{| c_text := lit "  he are happy "; c_tone := lit "original";
         c_show := false |}]).
Proof.
  apply (@api_enhance_local ascii_only cfg_off g_down
           {| r_text := Some (lit "  he are happy "); r_tone := None;
              r_showExplanations := Some false |} (lit "  he are happy ")).
  - reflexivity.
  - apply valid_forallb. reflexivity.
  - reflexivity.
  - left. reflexivity.
Defined.

(** X15: when the LLM answers a request with something that is not JSON,
    or with JSON that is not an object, the handler answers 500 with the
    error, after one call of [enhance_text]. *)
Theorem api_enhance_bad_reply (U : UnicodeDB) (cfg : config) (g : genai)
    (data : request) (text reply : str) :
  let tone := or_default (r_tone data) (lit "original") in
  let show := or_default (r_showExplanations data) true in
  r_text data = Some text -> whitespace_only U text = false ->
  HAS_GEMINI_SDK cfg && key_configured cfg = true ->
  ask_gemini U g (prompt_of text tone show) = Some reply ->
  match loads (strip U (clean_fences reply)) with
  | Some (JObj _) => True
  | other =>
      api_enhance U cfg g data
      = ({| status := 500;
            payload_of := ErrorRaised (match other with
                                       | None => JSONDecodeError
                                       | Some _ => AttributeError
                                       end) |},
         [{| c_text := text; c_tone := tone; c_show := show |}])
  end.
Proof.
  intros tone show Htext Hw Hon Hask. unfold api_enhance. rewrite Htext.
  cbn [or_default]. rewrite truthy_strip, Hw.
  assert (Htr : truthy text = true)
    by (destruct text; [discriminate|reflexivity]).
  rewrite Htr. cbn [negb orb]. fold tone. fold show.
  unfold enhance_text. rewrite Hon, Hask.
  destruct (loads (strip U (clean_fences reply))) as [[| | | | |]|];
    try exact I; reflexivity.
Qed.

Lemma api_enhance_bad_reply_witness :
  api_enhance ascii_only cfg_on (g_says (lit "I cannot help with that."))
    {| r_text := Some (lit "he are happy"); r_tone := Some (lit "casual");
       r_showExplanations := None |}
  = ({| status := 500; payload_of := ErrorRaised JSONDecodeError |},
     [{| c_text := lit "he are happy"; c_tone := lit "casual";
         c_show := true |}]).
Proof.
  apply (@api_enhance_bad_reply ascii_only cfg_on
           (g_says (lit "I cannot help with that."))
           {| r_text := Some (lit "he are happy");
              r_tone := Some (lit "casual"); r_showExplanations := None |}
           (lit "he are happy") (lit "I cannot help with that."));
    reflexivity.
Defined.

(** * The order of the improvements *)

(** the reasons of [rules], the reason of the i-th rule [counts_i] times,
    in the order of the rules *)
Definition by_rule (rules : list rule) (counts : list nat) : list str :=
  flat_map (fun rk => repeat (rule_reason (fst rk)) (snd rk))
           (combine rules counts).

Definition in_rule_order (rules : list rule) (reasons : list str) : Prop :=
  exists counts, List.length counts = List.length rules
                 /\ reasons = by_rule rules counts.

Section Order.

Variable U : UnicodeDB.

Lemma records_append (r : rule) (show : bool) (ms : list rmatch_result) :
  forall cs, exists k,
    map reason (fold_left (record U r show) ms cs)
    = map reason cs ++ repeat (rule_reason r) k.
Proof.
  induction ms as [|m ms IH]; intros cs; cbn [fold_left].
  - exists 0. cbn [repeat]. now rewrite app_nil_r.
  - destruct (IH (record U r show cs m)) as [k Hk]. rewrite Hk.
    unfold record. destruct (negb _ && show); [|now exists k].
    destruct (existsb _ cs); [now exists k|].
    exists (S k). rewrite map_app, <- app_assoc. reflexivity.
Qed.

Lemma rules_grouped (show : bool) (rules : list rule) :
  forall st, exists counts,
    List.length counts = List.length rules
    /\ map reason (fst (fold_left (apply_rule U show) rules st))
       = map reason (fst st) ++ by_rule rules counts.
Proof.
  induction rules as [|r rules IH]; intros [cs t]; cbn [fold_left].
  - exists []. split; [reflexivity|]. cbn. now rewrite app_nil_r.
  - cbn [apply_rule].
    destruct (IH (fold_left (record U r show)
                            (finditer U (pattern r) t) cs,
                  sub U (pattern r) (replacement r) t)) as [counts [Hl Hc]].
    destruct (records_append r show (finditer U (pattern r) t) cs) as [k Hk].
    exists (k :: counts). split; [simpl; now rewrite Hl|].
    rewrite Hc. cbn [fst]. rewrite Hk, <- app_assoc. reflexivity.
Qed.

Lemma by_rule_zero (rules : list rule) :
  by_rule rules (repeat 0 (List.length rules)) = [].
Proof. induction rules as [|r rules IH]; [reflexivity|]. exact IH. Qed.

Lemma firstn_repeat {A : Type} (x : A) (n k : nat) :
  firstn n (repeat x k) = repeat x (Nat.min n k).
Proof.
  revert k. induction n as [|n IH]; intros [|k]; try reflexivity.
  cbn [firstn repeat Nat.min]. now rewrite IH.
Qed.

Lemma by_rule_firstn (rules : list rule) :
  forall counts n, List.length counts = List.length rules ->
    exists counts', List.length counts' = List.length rules
                    /\ firstn n (by_rule rules counts) = by_rule rules counts'.
Proof.
  induction rules as [|r rules IH]; intros counts n Hl.
  - exists []. split; [reflexivity|]. destruct counts; [|discriminate].
    now rewrite firstn_nil.
  - destruct counts as [|k counts]; [discriminate|]. injection Hl as Hl.
    unfold by_rule. cbn [combine flat_map fst snd]. fold (by_rule rules counts).
    rewrite firstn_app, firstn_repeat, repeat_length.
    destruct (IH counts (n - k) Hl) as [counts' [Hl' Hc']].
    exists (Nat.min n k :: counts'). split; [simpl; now rewrite Hl'|].
    rewrite Hc'. reflexivity.
Qed.

End Order.

(** no two texts of the list are the same *)
Fixpoint distinct (l : list str) : bool :=
  match l with
  | [] => true
  | x :: t => negb (existsb (Str.eqb x) t) && distinct t
  end.

Lemma distinct_NoDup (l : list str) : distinct l = true -> NoDup l.
Proof.
  induction l as [|x t IH]; intros H; [constructor|].
  cbn [distinct] in H. apply andb_prop in H. destruct H as [Hx Ht].
  constructor; [|now apply IH]. intros Hin.
  apply negb_true_iff in Hx.
  assert (He : existsb (Str.eqb x) t = true)
    by (apply existsb_exists; exists x; split; [exact Hin|apply Str.eqb_refl]).
  congruence.
Qed.

(** X16: the improvements are listed in the order of the rule table, not
    in the order of the text: first what the first rule reported, then what
    the second did, and so on (each rule has its own reason). *)
Theorem improvements_in_rule_order (U : UnicodeDB) (text tone : str)
    (show : bool) :
  in_rule_order grammar_rules
                (map reason (improvements (local_payload U text tone show)))
  /\ NoDup (map rule_reason grammar_rules).
Proof.
  split.
  - unfold local_payload, run_rules.
    destruct (rules_grouped U show grammar_rules ([], text))
      as [counts [Hl Hc]].
    destruct (fold_left _ _ _) as [cs t]. cbn [fst improvements map app] in *.
    rewrite <- firstn_map, Hc.
    destruct (by_rule_firstn grammar_rules counts 10 Hl) as [counts' [Hl' H]].
    exists counts'. split; assumption.
  - apply distinct_NoDup. vm_compute. reflexivity.
Qed.

(** * The credential *)

(** X17: the health check reports a configured credential exactly when
    the variable is set to a text that is neither empty nor the
    placeholder; and only then, with the SDK present, does [enhance_text]
    ask the service at all. *)
Theorem api_configured_iff (U : UnicodeDB) (cfg : config) (now : str) :
  (api_configured (health_check cfg now) = true
   <-> exists k, env_GEMINI_API_KEY cfg = Some k /\ k <> []
                 /\ k <> placeholder)
  /\ forall g g' text tone show,
       api_configured (health_check cfg now) = false ->
       enhance_text U cfg g text tone show
       = enhance_text U cfg g' text tone show.
Proof.
  split.
  - unfold health_check, key_configured, GEMINI_API_KEY.
    cbn [api_configured]. destruct (env_GEMINI_API_KEY cfg) as [k|].
    + split.
      * intros H. apply andb_prop in H. destruct H as [Hk Hp].
        exists k. split; [reflexivity|]. split.
        -- intros ->. discriminate.
        -- intros ->. now rewrite Str.eqb_refl in Hp.
      * intros [k' [Hk' [Hne Hnp]]]. injection Hk' as <-.
        apply andb_true_intro. split.
        -- destruct k; [congruence|reflexivity].
        -- apply negb_true_iff. destruct (Str.eqb k placeholder) eqn:E;
             [|reflexivity].
           apply Str.eqb_eq in E. congruence.
    + split; [discriminate|]. intros [k [Hk _]]. discriminate.
  - intros g g' text tone show H. cbn [health_check api_configured] in H.
    unfold enhance_text. rewrite H, andb_false_r. reflexivity.
Qed.

Lemma api_configured_iff_witness :
  enhance_text ascii_only cfg_off g_down (lit "he are happy") (lit "casual") true
  = enhance_text ascii_only cfg_off (g_says (lit "{}")) (lit "he are happy")
                 (lit "casual") true.
Proof.
  apply (proj2 (api_configured_iff ascii_only cfg_off [])).
  reflexivity.
Defined.
